(** * kompose: the command actions of the compose-to-cluster adapter

    A shallow embedding of the actions of package [app]: the resource
    conversion [ProjectKuber], the scale and run actions, the confirmation
    callback of the delete action and the foreground loop of the up action.

    Library calls the actions make (strconv, strings, fmt, the project
    handle, the cluster client) are modelled next to the action that uses
    them: the Go standard library after its documented algorithm, the two
    external libraries as parameters answering each call. *)

From Stdlib Require Import ZArith Ascii String List Lia.
From stdpp Require Import base option list strings gmap fin_maps.

Local Open Scope string_scope.
Local Open Scope list_scope.
Local Open Scope Z_scope.

(** ** Results of fallible calls *)

(** A Go call returning [(value, err)]: either the value or the error. *)
Inductive result (E A : Type) : Type :=
| Ok (a : A)
| Err (e : E).
Arguments Ok {E A} a.
Arguments Err {E A} e.

Definition is_Ok {E A} (r : result E A) : bool :=
  match r with Ok _ => true | Err _ => false end.

(** ** strconv.Atoi (Go standard library, 64-bit [int]) *)

Module strconv.

(** The two causes a [*NumError] carries. *)
Inductive NumErr := ErrSyntax | ErrRange.

Definition IntSize : Z := 64.
Definition maxUint64 : Z := 2 ^ 64 - 1.
Definition uint64 (z : Z) : Z := z mod 2 ^ 64.

Definition is_digit (c : ascii) : bool :=
  let n := Z.of_nat (nat_of_ascii c) in (48 <=? n) && (n <=? 57).

Definition digit_val (c : ascii) : Z := Z.of_nat (nat_of_ascii c) - 48.

(** The digit loop of [ParseUint] in base 10: [n] is the value read so
    far.  On overflow the loop stops with [ErrRange] at once, on a byte
    that is no digit with [ErrSyntax]. *)
Fixpoint parse_digits (n : Z) (s : string) : result NumErr Z :=
  match s with
  | EmptyString => Ok n
  | String c s' =>
      if negb (is_digit c) then Err ErrSyntax
      else
        let cutoff := maxUint64 / 10 + 1 in
        if cutoff <=? n then Err ErrRange
        else
          let n10 := uint64 (n * 10) in
          let n1 := uint64 (n10 + digit_val c) in
          if (n1 <? n10) || (maxUint64 <? n1) then Err ErrRange
          else parse_digits n1 s'
  end.

Definition ParseUint (s : string) : result NumErr Z :=
  match s with
  | EmptyString => Err ErrSyntax
  | _ => parse_digits 0 s
  end.

(** [ParseInt s 10 0]: an optional sign, then [ParseUint], then the range
    of a signed [IntSize]-bit integer.  A range error of [ParseUint]
    leaves [un = maxUint64], which the range test below rejects again. *)
Definition ParseInt (s : string) : result NumErr Z :=
  match s with
  | EmptyString => Err ErrSyntax
  | String c s' =>
      let '(neg, body) :=
        if Ascii.eqb c "+" then (false, s')
        else if Ascii.eqb c "-" then (true, s')
        else (false, s) in
      match ParseUint body with
      | Err ErrSyntax => Err ErrSyntax
      | r =>
          let un := match r with Ok u => u | Err _ => maxUint64 end in
          let cutoff := 2 ^ (IntSize - 1) in
          if negb neg && (cutoff <=? un) then Err ErrRange
          else if neg && (cutoff <? un) then Err ErrRange
          else Ok (if neg then - un else un)
      end
  end.

Definition Atoi (s : string) : result NumErr Z := ParseInt s.

(** The strings that spell an integer in base 10: an optional sign and at
    least one digit, nothing else. *)
Fixpoint all_digits (s : string) : bool :=
  match s with
  | EmptyString => true
  | String c s' => is_digit c && all_digits s'
  end.

Definition unsigned_decimal (s : string) : bool :=
  match s with
  | EmptyString => false
  | _ => all_digits s
  end.

Definition decimal_integer (s : string) : bool :=
  match s with
  | EmptyString => false
  | String c s' =>
      if Ascii.eqb c "+" then unsigned_decimal s'
      else if Ascii.eqb c "-" then unsigned_decimal s'
      else unsigned_decimal s
  end.

End strconv.

(** ** strings.SplitN (Go standard library), for a separator that is not empty *)

Module strings.

(** [cut s sep]: the text before and after the first occurrence of [sep]
    in [s] ([Index] followed by the two slices), if there is one. *)
Fixpoint cut (s sep : string) : option (string * string) :=
  if String.prefix sep s
  then Some (EmptyString, String.substring (String.length sep)
                            (String.length s - String.length sep) s)
  else match s with
       | EmptyString => None
       | String c s' =>
           match cut s' sep with
           | Some (a, b) => Some (String c a, b)
           | None => None
           end
       end.

(** [SplitN s sep n] for [n > 0]: at most [n] pieces, the last one the
    unsplit remainder; [n = 0] gives no piece at all. *)
Fixpoint SplitN (s sep : string) (n : nat) : list string :=
  match n with
  | O => []
  | S O => [s]
  | S n' =>
      match cut s sep with
      | Some (a, b) => a :: SplitN b sep n'
      | None => [s]
      end
  end.

End strings.


(** ** Messages and errors *)

(** The text of a library error, as [err.Error()] gives it. *)
Definition Error : Type := string.

(** An operand of a format verb. *)
Inductive Arg :=
| AStr (s : string)
| AErr (e : Error)
| ANumError (num : string) (e : strconv.NumErr).

(** A message: a plain text, or [fmt.Sprintf format args...] kept
    unformatted. *)
Inductive Msg :=
| Text (s : string)
| Sprintf (format : string) (args : list Arg).

(** [cli.NewExitError(message, exitCode)] *)
Record ExitError := NewExitError { message : Msg; exitCode : Z }.

(** ** The cluster objects (package [api]), with the fields the conversion sets *)

Module api.

Inductive RestartPolicy :=
| RestartPolicyAlways
| RestartPolicyOnFailure
| RestartPolicyNever.

Record TypeMeta := { Kind : string; APIVersion : string }.

Record ObjectMeta := { Name : string; Labels : gmap string string }.

Record ContainerPort := { ContainerPort_ContainerPort : Z }.

Record ServicePort := { ServicePort_Port : Z }.

Record Container := {
  Container_Name : string;
  Container_Image : string;
  Container_Ports : list ContainerPort }.

(** [PodSpec_RestartPolicy] is [None] while the field has its zero value. *)
Record PodSpec := {
  PodSpec_Containers : list Container;
  PodSpec_RestartPolicy : option RestartPolicy }.

Record PodTemplateSpec := {
  PodTemplateSpec_ObjectMeta : ObjectMeta;
  PodTemplateSpec_Spec : PodSpec }.

Record ReplicationControllerSpec := {
  Replicas : Z;
  RC_Selector : gmap string string;
  Template : PodTemplateSpec }.

Record ReplicationController := {
  RC_TypeMeta : TypeMeta;
  RC_ObjectMeta : ObjectMeta;
  RC_Spec : ReplicationControllerSpec }.

Record ServiceSpec := {
  Service_Selector : gmap string string;
  Service_Ports : list ServicePort }.

Record Service := {
  Service_TypeMeta : TypeMeta;
  Service_ObjectMeta : ObjectMeta;
  Service_Spec : ServiceSpec }.

End api.

(** The fields of a compose service definition that the conversion reads. *)
Record ServiceConfig := {
  Image : string;
  Ports : list string;
  Restart : string }.

(** ** The resource conversion: [ProjectKuber] *)

Module Kuber.
Import api.

(** What the conversion does to the outside, in order. *)
Inductive Event :=
| CreateRC (rc : ReplicationController)
| CreateSVC (sc : Service)
| Println (e : Error).

(** The cluster client: each create call answers [None] on success or the
    error, possibly depending on everything that happened before. *)
Record Client := {
  ReplicationControllers_Create :
    list Event -> ReplicationController -> option Error;
  Services_Create : list Event -> Service -> option Error }.

(** How a computation ends: with a value, in [logrus.Fatalf] (the process
    exits with status 1), or in a panic. *)
Inductive Outcome (A : Type) :=
| Done (a : A)
| Fatal (m : Msg)
| Panic.
Arguments Done {A} a.
Arguments Fatal {A} m.
Arguments Panic {A}.

(** A computation reads the events so far and returns them extended. *)
Definition M (A : Type) : Type := list Event -> list Event * Outcome A.

Definition ret {A} (a : A) : M A := fun tr => (tr, Done a).

Definition bind {A B} (k : A -> M B) (m : M A) : M B :=
  fun tr =>
    match m tr with
    | (tr', Done a) => k a tr'
    | (tr', Fatal msg) => (tr', Fatal msg)
    | (tr', Panic) => (tr', Panic)
    end.

#[global] Instance M_ret : MRet M := @ret.
#[global] Instance M_bind : MBind M := @bind.

Definition Fatalf {A} (fmt : string) (l : list Arg) : M A :=
  fun tr => (tr, Fatal (Sprintf fmt l)).

Definition emit (e : Event) : M unit := fun tr => (tr ++ [e], Done tt).

Definition history : M (list Event) := fun tr => (tr, Done tr).

(** Lines 111-137 and 138-150: the two descriptors as first built. *)
Definition new_rc (name : string) (service : ServiceConfig)
  : ReplicationController :=
  {| RC_TypeMeta := {| Kind := "ReplicationController"; APIVersion := "v1" |};
     RC_ObjectMeta := {| Name := name; Labels := {[ "service" := name ]} |};
     RC_Spec :=
       {| Replicas := 1;
          RC_Selector := {[ "service" := name ]};
          Template :=
            {| PodTemplateSpec_ObjectMeta :=
                 {| Name := ""; Labels := {[ "service" := name ]} |};
               PodTemplateSpec_Spec :=
                 {| PodSpec_Containers :=
                      [ {| Container_Name := name;
                           Container_Image := Image service;
                           Container_Ports := [] |} ];
                    PodSpec_RestartPolicy := None |} |} |} |}.

Definition new_sc (name : string) : Service :=
  {| Service_TypeMeta := {| Kind := "Service"; APIVersion := "v1" |};
     Service_ObjectMeta := {| Name := name; Labels := {[ "service" := name ]} |};
     Service_Spec :=
       {| Service_Selector := {[ "service" := name ]};
          Service_Ports := [] |} |}.

(** The assignments of lines 162, 173 and 178-182. *)
Definition set_Container_Ports (ports : list ContainerPort) (c : Container)
  : Container :=
  {| Container_Name := Container_Name c;
     Container_Image := Container_Image c;
     Container_Ports := ports |}.

Definition set_PodSpec (f : PodSpec -> PodSpec) (rc : ReplicationController)
  : ReplicationController :=
  {| RC_TypeMeta := RC_TypeMeta rc;
     RC_ObjectMeta := RC_ObjectMeta rc;
     RC_Spec :=
       {| Replicas := Replicas (RC_Spec rc);
          RC_Selector := RC_Selector (RC_Spec rc);
          Template :=
            {| PodTemplateSpec_ObjectMeta :=
                 PodTemplateSpec_ObjectMeta (Template (RC_Spec rc));
               PodTemplateSpec_Spec :=
                 f (PodTemplateSpec_Spec (Template (RC_Spec rc))) |} |} |}.

(** [rc.Spec.Template.Spec.Containers[0].Ports = ports] *)
Definition set_rc_ports (ports : list ContainerPort)
    (rc : ReplicationController) : ReplicationController :=
  set_PodSpec (fun ps =>
    {| PodSpec_Containers :=
         alter (set_Container_Ports ports) 0%nat (PodSpec_Containers ps);
       PodSpec_RestartPolicy := PodSpec_RestartPolicy ps |}) rc.

(** [rc.Spec.Template.Spec.RestartPolicy = p] *)
Definition set_rc_restart (p : RestartPolicy)
    (rc : ReplicationController) : ReplicationController :=
  set_PodSpec (fun ps =>
    {| PodSpec_Containers := PodSpec_Containers ps;
       PodSpec_RestartPolicy := Some p |}) rc.

(** [sc.Spec.Ports = servicePorts] *)
Definition set_sc_ports (servicePorts : list ServicePort) (sc : Service)
  : Service :=
  {| Service_TypeMeta := Service_TypeMeta sc;
     Service_ObjectMeta := Service_ObjectMeta sc;
     Service_Spec :=
       {| Service_Selector := Service_Selector (Service_Spec sc);
          Service_Ports := servicePorts |} |}.

(** Lines 153-160: the container ports, appended one by one; the first
    port string [Atoi] rejects is fatal. *)
Fixpoint container_ports (name : string) (l : list string)
    (ports : list ContainerPort) : M (list ContainerPort) :=
  match l with
  | [] => mret ports
  | port :: l' =>
      match strconv.Atoi port with
      | Err _ =>
          Fatalf "Invalid container port %s for service %s"
                 [AStr port; AStr name]
      | Ok portNumber =>
          container_ports name l'
            (ports ++ [ {| ContainerPort_ContainerPort := portNumber |} ])
      end
  end.

(** Lines 165-172: the same loop once more for the service ports. *)
Fixpoint service_ports (name : string) (l : list string)
    (servicePorts : list ServicePort) : M (list ServicePort) :=
  match l with
  | [] => mret servicePorts
  | port :: l' =>
      match strconv.Atoi port with
      | Err _ =>
          Fatalf "Invalid container port %s for service %s"
                 [AStr port; AStr name]
      | Ok portNumber =>
          service_ports name l'
            (servicePorts ++ [ {| ServicePort_Port := portNumber |} ])
      end
  end.

(** Lines 176-185: the [switch] on the restart-policy string; [None] is
    its [default] case. *)
Definition restart_policy (restart : string) : option RestartPolicy :=
  if decide (restart = "" \/ restart = "always") then Some RestartPolicyAlways
  else if decide (restart = "no") then Some RestartPolicyNever
  else if decide (restart = "on-failure") then Some RestartPolicyOnFailure
  else None.

Definition configure_restart (name : string) (service : ServiceConfig)
    (rc : ReplicationController) : M ReplicationController :=
  match restart_policy (Restart service) with
  | Some p => mret (set_rc_restart p rc)
  | None =>
      Fatalf "Unknown restart policy %s for service %s"
             [AStr (Restart service); AStr name]
  end.

(** Lines 111-173: both descriptors with their port lists set. *)
Definition build_ports (name : string) (service : ServiceConfig)
  : M (ReplicationController * Service) :=
  let rc := new_rc name service in
  let sc := new_sc name in
  ports ← container_ports name (Ports service) [];
  let rc := set_rc_ports ports rc in
  servicePorts ← service_ports name (Ports service) [];
  let sc := set_sc_ports servicePorts sc in
  mret (rc, sc).

(** Lines 111-185: the descriptors as they are submitted. *)
Definition build (name : string) (service : ServiceConfig)
  : M (ReplicationController * Service) :=
  '(rc, sc) ← build_ports name service;
  rc ← configure_restart name service rc;
  mret (rc, sc).

(** Lines 193-196 and 199-202: a create call; its error is printed and
    otherwise dropped. *)
Definition create_rc (client : Client) (rc : ReplicationController) : M unit :=
  tr ← history;
  emit (CreateRC rc);;
  match ReplicationControllers_Create client tr rc with
  | Some err => emit (Println err)
  | None => mret tt
  end.

Definition create_sc (client : Client) (sc : Service) : M unit :=
  tr ← history;
  emit (CreateSVC sc);;
  match Services_Create client tr sc with
  | Some err => emit (Println err)
  | None => mret tt
  end.

(** What [ProjectKuber] asks of its surroundings: the flags, the parsed
    compose file, the file system, the environment, the client
    constructor, the order in which [range] visits the parsed map, and
    the JSON encoder. *)
Record Env := {
  c_String : string -> string;
  Parse : string -> result Error (gmap string ServiceConfig);
  range : gmap string ServiceConfig -> list (string * ServiceConfig);
  MkdirAll : string -> option Error;
  ReadFile : string -> result Error string;
  Getenv : string -> string;
  latest_Version : string;
  NewOrDie : string -> string -> option Client;
  MarshalIndent : ReplicationController -> result Error string }.

(** The body of the loop, lines 111-202. *)
Definition convert_service (env : Env) (client : Client)
    (name : string) (service : ServiceConfig) : M unit :=
  '(rc, sc) ← build name service;
  match MarshalIndent env rc with
  | Err err =>
      Fatalf "Failed to marshal the replication controller: %v" [AErr err]
  | Ok data =>
      create_rc client rc;;
      create_sc client sc
  end.

(** [for name, service := range ... { body }] over the visiting order. *)
Fixpoint for_range (body : string -> ServiceConfig -> M unit)
    (l : list (string * ServiceConfig)) : M unit :=
  match l with
  | [] => mret tt
  | (name, service) :: l' => body name service;; for_range body l'
  end.

(** Lines 79-108: everything before the loop.  It submits nothing. *)
Definition setup (env : Env) : Outcome (Client * gmap string ServiceConfig) :=
  let outputDir := c_String env "output" in
  let composeFile := c_String env "file" in
  match Parse env composeFile with
  | Err err =>
      Fatal (Sprintf "Failed to parse the compose project from %s: %v"
                     [AStr composeFile; AErr err])
  | Ok configs =>
      match MkdirAll env outputDir with
      | Some err =>
          Fatal (Sprintf "Failed to create the output directory %s: %v"
                         [AStr outputDir; AErr err])
      | None =>
          let outputFilePath := "~/.kuberconfig" in
          match ReadFile env outputFilePath with
          | Err err =>
              Fatal (Sprintf "Failed to read k8s api server address from %s: %v"
                             [AStr outputFilePath; AErr err])
          | Ok server =>
              if decide (server = "")
              then Fatal (Sprintf "K8s api server address isn't defined in %s"
                                  [AStr outputFilePath])
              else
                let version := Getenv env "KUBE_API_VERSION" in
                let version :=
                  if decide (version = "") then latest_Version env
                  else version in
                match NewOrDie env server version with
                | None => Panic
                | Some client => Done (client, configs)
                end
          end
      end
  end.

Definition ProjectKuber (env : Env) : list Event * Outcome unit :=
  match setup env with
  | Done (client, configs) =>
      for_range (convert_service env client) (range env configs) []
  | Fatal m => ([], Fatal m)
  | Panic => ([], Panic)
  end.

(** *** Vocabulary for the statements about the conversion *)

(** The name a create call is made for. *)
Definition submitted_for (e : Event) : option string :=
  match e with
  | CreateRC rc => Some (Name (RC_ObjectMeta rc))
  | CreateSVC sc => Some (Name (Service_ObjectMeta sc))
  | Println _ => None
  end.

Definition is_create (e : Event) : bool :=
  match e with Println _ => false | _ => true end.

(** The create calls of a run, in order. *)
Definition submissions (tr : list Event) : list Event :=
  List.filter is_create tr.

(** The port numbers of a list of port strings, when all of them parse. *)
Fixpoint parse_ports (l : list string) : option (list Z) :=
  match l with
  | [] => Some []
  | port :: l' =>
      match strconv.Atoi port, parse_ports l' with
      | Ok n, Some ns => Some (n :: ns)
      | _, _ => None
      end
  end.

(** What a create call adds after the call itself: the error, printed. *)
Definition printed (err : option Error) : list Event :=
  match err with
  | Some err => [Println err]
  | None => []
  end.

(** The events of submitting [rc] and then [sc] after the events [tr]. *)
Definition submit (client : Client) (rc : ReplicationController)
    (sc : Service) (tr : list Event) : list Event :=
  let ev1 := CreateRC rc :: printed (ReplicationControllers_Create client tr rc) in
  ev1 ++ CreateSVC sc :: printed (Services_Create client (tr ++ ev1) sc).

(** The descriptors of a service, when lines 111-185 get through. *)
Definition descriptors (name : string) (service : ServiceConfig)
  : option (ReplicationController * Service) :=
  match (build name service []).2 with
  | Done d => Some d
  | _ => None
  end.

(** A service the loop body gets through up to the create calls. *)
Definition convertible (env : Env) (name : string) (service : ServiceConfig)
  : Prop :=
  exists rc sc, descriptors name service = Some (rc, sc)
                /\ is_Ok (MarshalIndent env rc) = true.

(** The events of submitting the services of [l] one after the other. *)
Fixpoint submit_all (client : Client) (l : list (string * ServiceConfig))
    (tr : list Event) : list Event :=
  match l with
  | [] => tr
  | (name, service) :: l' =>
      match descriptors name service with
      | Some (rc, sc) => submit_all client l' (tr ++ submit client rc sc tr)
      | None => tr
      end
  end.

(** The answer of the cluster to the call [e] made after the events [pre]. *)
Definition answer (client : Client) (pre : list Event) (e : Event)
  : option Error :=
  match e with
  | CreateRC rc => ReplicationControllers_Create client pre rc
  | CreateSVC sc => Services_Create client pre sc
  | Println _ => None
  end.

(** In the events [tr], every create call that failed is followed at once
    by the print of its error. *)
Definition failures_printed (client : Client) (tr : list Event) : Prop :=
  forall pre e post err,
    tr = pre ++ e :: post ->
    answer client pre e = Some err ->
    exists post', post = Println err :: post'.

(** The same surroundings with the client constructor handing out [client]. *)
Definition with_client (env : Env) (client : Client) : Env :=
  {| c_String := c_String env; Parse := Parse env; range := range env;
     MkdirAll := MkdirAll env; ReadFile := ReadFile env; Getenv := Getenv env;
     latest_Version := latest_Version env;
     NewOrDie := fun _ _ => Some client;
     MarshalIndent := MarshalIndent env |}.

(** The restart-policy strings the [switch] has a case for. *)
Definition known_restart (restart : string) : Prop :=
  restart = "" \/ restart = "always" \/ restart = "no" \/ restart = "on-failure".

End Kuber.

(** ** The scale action: [ProjectScale] *)

Module Scale.

(** The one call the action makes on the project handle. *)
Inductive Event :=
| p_Scale (timeout : Z) (servicesScale : gmap string Z).

(** Lines 426-440: the loop over the arguments, filling [servicesScale];
    it returns from the action at the first argument it rejects. *)
Fixpoint scale_args (args : list string) (servicesScale : gmap string Z)
  : result ExitError (gmap string Z) :=
  match args with
  | [] => Ok servicesScale
  | arg :: args' =>
      match strings.SplitN arg "=" 2 with
      | [name; v] =>
          match strconv.Atoi v with
          | Err err =>
              Err (NewExitError
                     (Sprintf "Invalid scale parameter: %v" [ANumError v err]) 2)
          | Ok count => scale_args args' (<[name := count]> servicesScale)
          end
      | _ =>
          Err (NewExitError
                 (Sprintf "Invalid scale parameter: %s" [AStr arg]) 2)
      end
  end.

(** [Scale] is the answer of the project handle to [p.Scale]; the result
    is the calls made and the error returned ([None] for [nil]). *)
Definition ProjectScale (Scale : Z -> gmap string Z -> option Error)
    (timeout : Z) (args : list string) : list Event * option ExitError :=
  match scale_args args ∅ with
  | Err e => ([], Some e)
  | Ok servicesScale =>
      ([p_Scale timeout servicesScale],
       match Scale timeout servicesScale with
       | Some err => Some (NewExitError (Text err) 1)
       | None => None
       end)
  end.

(** An argument of the form name=integer: some text, an equals sign, and
    an integer in decimal. *)
Definition name_eq_integer (arg : string) : Prop :=
  exists name count : string,
    arg = String.append name (String.append "=" count)
    /\ strconv.decimal_integer count = true.

End Scale.

(** ** The run action: [ProjectRun] *)

Module Run.

Inductive Event :=
| p_Run (serviceName : string) (commandParts : list string).

(** How the action ends: it returns an exit error, [logrus.Fatal] ends the
    process, or indexing the arguments panics. *)
Inductive Outcome :=
| Return (e : ExitError)
| Fatal (m : Msg)
| IndexOutOfRange (index len : nat).

(** [Run] is the answer of the project handle: the exit code of the
    command and the error, if any. *)
Definition ProjectRun (Run : string -> list string -> Z * option Error)
    (args : list string) : list Event * Outcome :=
  if decide (length args = 1%nat) then ([], Fatal (Text "No service specified"))
  else
    match args !! 0%nat with
    | None => ([], IndexOutOfRange 0 (length args))
    | Some serviceName =>
        let commandParts := drop 1 args in
        let '(exitCode, err) := Run serviceName commandParts in
        ([p_Run serviceName commandParts],
         match err with
         | Some err => Return (NewExitError (Text err) 1)
         | None => Return (NewExitError (Text "") exitCode)
         end)
    end.

End Run.

(** ** fmt.Scanln into one string (Go standard library) *)

Module fmt.

(** Standard input as the runes [ReadRune] delivers, by code point. *)
Definition rune : Type := N.

Definition newline : rune := 10%N.

(** The table [space] of package fmt, as inclusive ranges. *)
Definition space : list (N * N) :=
  [ (0x0009, 0x000d); (0x0020, 0x0020); (0x0085, 0x0085); (0x00a0, 0x00a0);
    (0x1680, 0x1680); (0x2000, 0x200a); (0x2028, 0x2029); (0x202f, 0x202f);
    (0x205f, 0x205f); (0x3000, 0x3000) ]%N.

Fixpoint in_ranges (rx : N) (l : list (N * N)) : bool :=
  match l with
  | [] => false
  | (lo, hi) :: l' =>
      if (rx <? lo)%N then false
      else if (rx <=? hi)%N then true
      else in_ranges rx l'
  end.

Definition isSpace (r : rune) : bool :=
  if (0x10000 <=? r)%N then false else in_ranges r space.

Inductive ScanErr :=
| UnexpectedNewline   (* a newline where the operand should start *)
| OutOfInput          (* end of input where the operand should start *)
| ExpectedNewline.    (* more text after the operand *)

(** [SkipSpace] with newlines significant: blanks are skipped, a newline
    is an error.  [Ok rest] starts at a rune that is no space, or is
    empty at the end of input. *)
Fixpoint SkipSpace (input : list rune) : result ScanErr (list rune) :=
  match input with
  | [] => Ok []
  | r :: rest =>
      if (r =? newline)%N then Err UnexpectedNewline
      else if isSpace r then SkipSpace rest
      else Ok input
  end.

(** [token(true, notSpace)] once the blanks are skipped: the longest run
    of runes that are no space, and the input after it. *)
Fixpoint token (input : list rune) : list rune * list rune :=
  match input with
  | [] => ([], [])
  | r :: rest =>
      if isSpace r then ([], input)
      else let '(word, rest') := token rest in (r :: word, rest')
  end.

(** The check that ends [doScan] for the *ln functions: up to the newline
    or the end of input only blanks may follow. *)
Fixpoint end_of_line (input : list rune) : result ScanErr (list rune) :=
  match input with
  | [] => Ok []
  | r :: rest =>
      if (r =? newline)%N then Ok rest
      else if isSpace r then end_of_line rest
      else Err ExpectedNewline
  end.

(** [_, err := fmt.Scanln(&answer)] with [answer] empty before the call:
    the value of [answer] afterwards, the error, and the input left. *)
Definition Scanln (stdin : list rune)
  : list rune * option ScanErr * list rune :=
  match SkipSpace stdin with
  | Err e => ([], Some e, [])
  | Ok [] => ([], Some OutOfInput, [])
  | Ok input =>
      let '(word, rest) := token input in
      match end_of_line rest with
      | Err e => (word, Some e, [])
      | Ok rest' => (word, None, rest')
      end
  end.

(** The runes of a string constant of the source (ASCII only). *)
Fixpoint runes (s : string) : list rune :=
  match s with
  | EmptyString => []
  | String c s' => N_of_ascii c :: runes s'
  end.

End fmt.

(** ** The confirmation callback of the delete action *)

Module Delete.

Inductive Event :=
| Printf (m : Msg)
| logrus_Error (e : fmt.ScanErr).

(** Lines 375-387: the function stored in [options.BeforeDeleteCallback]
    when the force flag is off.  [stdin] is what standard input holds
    when the callback runs. *)
Definition BeforeDeleteCallback (stdin : list fmt.rune)
    (stoppedContainers : list string) : list Event * bool :=
  let prompt :=
    Printf (Sprintf "Going to remove %v\nAre you sure? [yN]\n"
                    [AStr (String.concat ", " stoppedContainers)]) in
  let '(answer, err, _) := fmt.Scanln stdin in
  match err with
  | Some err => ([prompt; logrus_Error err], false)
  | None =>
      if bool_decide (answer ≠ fmt.runes "y")
         && bool_decide (answer ≠ fmt.runes "Y")
      then ([prompt], false)
      else ([prompt], true)
  end.

Record options_Delete := {
  RemoveVolume : bool;
  options_BeforeDeleteCallback :
    option (list fmt.rune -> list string -> list Event * bool) }.

(** Lines 370-394.  [Delete] is the answer of the project handle, which
    decides whether and when the callback is called. *)
Definition ProjectDelete (Delete : options_Delete -> list string -> option Error)
    (c_v c_force : bool) (args : list string) : option ExitError :=
  let options :=
    {| RemoveVolume := c_v;
       options_BeforeDeleteCallback :=
         if negb c_force then Some BeforeDeleteCallback else None |} in
  match Delete options args with
  | Some err => Some (NewExitError (Text err) 1)
  | None => None
  end.

(** The line standard input starts with: everything before the first
    newline, or all of it when there is none. *)
Fixpoint first_line (stdin : list fmt.rune) : list fmt.rune :=
  match stdin with
  | [] => []
  | r :: rest => if (r =? fmt.newline)%N then [] else r :: first_line rest
  end.

End Delete.

(** ** The up action: [ProjectUp] and its foreground loop *)

Module Up.

(** The goroutine of lines 294-296. *)
Inductive Logger :=
| Logging                        (* inside [p.Log] *)
| Sending (err : option Error)   (* blocked in [errChan <- err] *)
| LoggerEnd.

(** The goroutine of lines 297-310, by the statement it is about to run. *)
Inductive Handler :=
| Select                         (* line 298 *)
| SigPrintf                      (* line 300 *)
| SigCancel                      (* line 301: [cancelFun()] *)
| SigStop                        (* line 302: [ProjectStop(p, c)] *)
| SigSend                        (* line 303: [cleanupDone <- true] *)
| SigEnd
| ErrCheck (err : option Error)  (* line 305 *)
| ErrSend                        (* line 308: [cleanupDone <- true] *)
| ErrEnd.

(** The calling goroutine: blocked in [<-cleanupDone] of line 311, back
    from [ProjectUp] with [nil] (exit status 0), or gone with the whole
    process in [logrus.Fatal] (exit status 1). *)
Inductive Main :=
| Waiting
| ReturnedNil
| Exited1.

Record State := {
  signalChan : bool;     (* the one-slot buffer holds a signal *)
  cancelled : bool;      (* [ctx] is cancelled *)
  stops : nat;           (* calls of [p.Stop] so far *)
  logger : Logger;
  handler : Handler;
  main : Main }.

(** Lines 225-231, called from line 302.  [stop] is the answer of
    [p.Stop]. *)
Definition ProjectStop (stop : option Error) : option ExitError :=
  match stop with
  | Some err => Some (NewExitError (Text err) 1)
  | None => None
  end.

(** One step of one party.  The first two are the surroundings: the
    operating system delivering SIGINT or SIGTERM into the empty buffer
    (into a full one the signal is dropped and nothing changes), and
    [p.Log] returning.  The others are statements of the source; [DoStop]
    is the call of [ProjectStop], whose result line 302 drops. *)
Inductive Label :=
| Deliver
| LogReturns (err : option Error)
| SelectSignal                   (* [case <-signalChan] is taken *)
| SelectErr                      (* [case err := <-errChan] is taken *)
| DoPrintf
| DoCancel
| DoStop (err : option Error)    (* [p.Stop] returns [err] *)
| DoCheck
| CleanupDone.                   (* send and receive on [cleanupDone] meet *)

Definition with_handler (h : Handler) (s : State) : State :=
  {| signalChan := signalChan s; cancelled := cancelled s; stops := stops s;
     logger := logger s; handler := h; main := main s |}.

(** [step l s] is the state after [l], or [None] when [l] cannot happen
    in [s].  Nothing runs once the process has exited. *)
Definition step (l : Label) (s : State) : option State :=
  match main s with
  | Exited1 => None
  | _ =>
    match l, handler s, logger s with
    | Deliver, _, _ =>
        if signalChan s then None
        else Some {| signalChan := true; cancelled := cancelled s;
                     stops := stops s; logger := logger s;
                     handler := handler s; main := main s |}
    | LogReturns err, _, Logging =>
        Some {| signalChan := signalChan s; cancelled := cancelled s;
                stops := stops s; logger := Sending err;
                handler := handler s; main := main s |}
    | SelectSignal, Select, _ =>
        if signalChan s
        then Some {| signalChan := false; cancelled := cancelled s;
                     stops := stops s; logger := logger s;
                     handler := SigPrintf; main := main s |}
        else None
    | SelectErr, Select, Sending err =>
        Some {| signalChan := signalChan s; cancelled := cancelled s;
                stops := stops s; logger := LoggerEnd;
                handler := ErrCheck err; main := main s |}
    | DoPrintf, SigPrintf, _ => Some (with_handler SigCancel s)
    | DoCancel, SigCancel, _ =>
        Some {| signalChan := signalChan s; cancelled := true;
                stops := stops s; logger := logger s;
                handler := SigStop; main := main s |}
    | DoStop _, SigStop, _ =>
        Some {| signalChan := signalChan s; cancelled := cancelled s;
                stops := S (stops s); logger := logger s;
                handler := SigSend; main := main s |}
    | DoCheck, ErrCheck (Some _), _ =>
        Some {| signalChan := signalChan s; cancelled := cancelled s;
                stops := stops s; logger := logger s;
                handler := handler s; main := Exited1 |}
    | DoCheck, ErrCheck None, _ => Some (with_handler ErrSend s)
    | CleanupDone, SigSend, _ =>
        match main s with
        | Waiting =>
            Some {| signalChan := signalChan s; cancelled := cancelled s;
                    stops := stops s; logger := logger s;
                    handler := SigEnd; main := ReturnedNil |}
        | _ => None
        end
    | CleanupDone, ErrSend, _ =>
        match main s with
        | Waiting =>
            Some {| signalChan := signalChan s; cancelled := cancelled s;
                    stops := stops s; logger := logger s;
                    handler := ErrEnd; main := ReturnedNil |}
        | _ => None
        end
    | _, _, _ => None
    end
  end.

(** A schedule is the sequence of steps taken; [run] follows it. *)
Fixpoint run (ls : list Label) (s : State) : option State :=
  match ls with
  | [] => Some s
  | l :: ls' =>
      match step l s with
      | Some s' => run ls' s'
      | None => None
      end
  end.

(** Line 311 reached: both goroutines started, nothing delivered yet. *)
Definition foreground : State :=
  {| signalChan := false; cancelled := false; stops := 0;
     logger := Logging; handler := Select; main := Waiting |}.

(** Lines 276-315.  [up] is the answer of [p.Up], [d] the detach flag:
    the action returns at once ([Err], with the value returned), or
    enters the foreground loop ([Ok], with its first state). *)
Definition ProjectUp (up : option Error) (d : bool)
  : result (option ExitError) State :=
  match up with
  | Some err => Err (Some (NewExitError (Text err) 1))
  | None => if negb d then Ok foreground else Err None
  end.

(** The steps of the source, as opposed to those of the surroundings. *)
Definition own (l : Label) : bool :=
  match l with
  | Deliver | LogReturns _ => false
  | _ => true
  end.

Definition is_stop (l : Label) : bool :=
  match l with DoStop _ => true | _ => false end.

Definition is_select_signal (l : Label) : bool :=
  match l with SelectSignal => true | _ => false end.

(** The number of [p.Stop] calls in a schedule. *)
Definition stop_calls (ls : list Label) : nat :=
  length (List.filter is_stop ls).

(** The exit status of the process, once it is decided. *)
Definition exit_status (m : Main) : option Z :=
  match m with
  | Waiting => None
  | ReturnedNil => Some 0
  | Exited1 => Some 1
  end.

(** The handler is in the branch of the signal case. *)
Definition received (h : Handler) : bool :=
  match h with
  | SigPrintf | SigCancel | SigStop | SigSend | SigEnd => true
  | _ => false
  end.

(** What holds at each statement of the handler. *)
Definition invariant (s : State) : bool :=
  match handler s, main s with
  | Select, Waiting | SigPrintf, Waiting | SigCancel, Waiting
  | ErrCheck _, Waiting | ErrSend, Waiting | ErrEnd, ReturnedNil =>
      (stops s =? 0)%nat && negb (cancelled s)
  | ErrCheck (Some _), Exited1 => (stops s =? 0)%nat && negb (cancelled s)
  | SigStop, Waiting => (stops s =? 0)%nat && cancelled s
  | SigSend, Waiting | SigEnd, ReturnedNil => (stops s =? 1)%nat && cancelled s
  | _, _ => false
  end.

(** An upper bound on the number of steps still to come. *)
Definition steps_left (s : State) : nat :=
  match main s with
  | Exited1 => 0
  | _ =>
      1 + (if signalChan s then 0 else 1)
        + match logger s with Logging => 2 | Sending _ => 1 | LoggerEnd => 0 end
        + match handler s with
          | Select => 6
          | SigPrintf => 4
          | SigCancel => 3
          | SigStop => 2
          | SigSend => 1
          | SigEnd => 0
          | ErrCheck _ => 2
          | ErrSend => 1
          | ErrEnd => 0
          end
  end%nat.

End Up.

(** ** Sample inputs *)

Module Sample.
Import Kuber.

Definition db : ServiceConfig :=
  {| Image := "postgres"; Ports := ["5432"]; Restart := "always" |}.

Definition web : ServiceConfig :=
  {| Image := "nginx"; Ports := ["80"; "443"]; Restart := "on-failure" |}.

Definition web_bad_restart : ServiceConfig :=
  {| Image := "nginx"; Ports := ["80"; "443"]; Restart := "sometimes" |}.

Definition web_bad_port : ServiceConfig :=
  {| Image := "nginx"; Ports := ["80"; "443/tcp"]; Restart := "on-failure" |}.

(** A cluster that refuses every replication controller. *)
Definition refusing : Client :=
  {| ReplicationControllers_Create := fun _ _ => Some "connection refused";
     Services_Create := fun _ _ => None |}.

Definition configs_of (w : ServiceConfig) : gmap string ServiceConfig :=
  <[ "web" := w ]> (<[ "db" := db ]> ∅).

(** Surroundings in which everything before the loop succeeds; the compose
    file has the services "db" and "web", visited in this order. *)
Definition env_of (w : ServiceConfig) : Env :=
  {| c_String := fun _ => "out";
     Parse := fun _ => Ok (configs_of w);
     range := fun _ => [("db", db); ("web", w)];
     MkdirAll := fun _ => None;
     ReadFile := fun _ => Ok "http://localhost:8080";
     Getenv := fun _ => "";
     latest_Version := "v1";
     NewOrDie := fun _ _ => Some refusing;
     MarshalIndent := fun _ => Ok "{}" |}.

(** An interrupt while the logs are streaming, handled to the end. *)
Definition interrupted : list Up.Label :=
  [Up.Deliver; Up.SelectSignal; Up.DoPrintf; Up.DoCancel; Up.DoStop None;
   Up.CleanupDone].

(** The state the schedule [interrupted] ends in. *)
Definition stopped : Up.State :=
  {| Up.signalChan := false; Up.cancelled := true; Up.stops := 1;
     Up.logger := Up.Logging; Up.handler := Up.SigEnd;
     Up.main := Up.ReturnedNil |}.

End Sample.

(** ** Further vocabulary for the conversion *)

Module Conversion.
Import api Kuber.

(** The two create calls of a service, in the order they are made. *)
Definition pair_of (d : string * ServiceConfig) : list Event :=
  match descriptors d.1 d.2 with
  | Some (rc, sc) => [CreateRC rc; CreateSVC sc]
  | None => []
  end.

(** What every submitted replication controller looks like. *)
Definition well_formed_rc (rc : ReplicationController) : Prop :=
  RC_TypeMeta rc = {| Kind := "ReplicationController"; APIVersion := "v1" |}
  /\ Replicas (RC_Spec rc) = 1
  /\ Labels (RC_ObjectMeta rc) = RC_Selector (RC_Spec rc)
  /\ Labels (PodTemplateSpec_ObjectMeta (Template (RC_Spec rc)))
     = RC_Selector (RC_Spec rc)
  /\ (exists c,
        PodSpec_Containers (PodTemplateSpec_Spec (Template (RC_Spec rc))) = [c]
        /\ Container_Name c = Name (RC_ObjectMeta rc))
  /\ is_Some (PodSpec_RestartPolicy (PodTemplateSpec_Spec (Template (RC_Spec rc)))).

(** The replication controller [rc] is the one of the service [service]. *)
Definition rc_of (service : ServiceConfig) (rc : ReplicationController) : Prop :=
  exists c,
    PodSpec_Containers (PodTemplateSpec_Spec (Template (RC_Spec rc))) = [c]
    /\ Container_Image c = Image service
    /\ Some (ContainerPort_ContainerPort <$> Container_Ports c)
       = parse_ports (Ports service)
    /\ PodSpec_RestartPolicy (PodTemplateSpec_Spec (Template (RC_Spec rc)))
       = restart_policy (Restart service).

End Conversion.

(** ** The value of a number in decimal *)

Module Decimal.

(** The number a run of digits spells, continuing from [n]. *)
Fixpoint digits_value (n : Z) (s : string) : Z :=
  match s with
  | EmptyString => n
  | String c s' => digits_value (10 * n + strconv.digit_val c) s'
  end.

(** The number an optionally signed run of digits spells. *)
Definition value (s : string) : Z :=
  match s with
  | EmptyString => 0
  | String c s' =>
      if Ascii.eqb c "+" then digits_value 0 s'
      else if Ascii.eqb c "-" then - digits_value 0 s'
      else digits_value 0 s
  end.

(** The strings that spell a number a 64-bit [int] holds. *)
Definition is_int (s : string) : Prop :=
  strconv.decimal_integer s = true
  /\ - 2 ^ 63 <= value s <= 2 ^ 63 - 1.

End Decimal.

(** ** The server address file: [ProjectKuberConfig] *)

Module KuberConfig.
Import Kuber.


Inductive Event :=
| Println (line : string).




(** The API version the client is built for (lines 103-106). *)
Definition api_version (env : Env) : string :=
  if decide (Getenv env "KUBE_API_VERSION" = "") then latest_Version env
  else Getenv env "KUBE_API_VERSION".

End KuberConfig.

(** ** Vocabulary for the arguments of the scale action *)

Module ScaleArgs.

(** The text holds an equals sign. *)
Fixpoint has_equals (s : string) : bool :=
  match s with
  | EmptyString => false
  | String c s' => Ascii.eqb c "=" || has_equals s'
  end.

(** The argument is [name], its first equals sign, and a number of a
    64-bit int in decimal, whose value is [count]. *)
Definition reads_as (arg name : string) (count : Z) : Prop :=
  exists v,
    arg = String.append name (String.append "=" v)
    /\ has_equals name = false
    /\ Decimal.is_int v
    /\ count = Decimal.value v.

(** What one turn of the loop of lines 426-440 takes from an argument. *)
Definition parse_arg (arg : string) : option (string * Z) :=
  match strings.SplitN arg "=" 2 with
  | [name; v] =>
      match strconv.Atoi v with
      | Ok count => Some (name, count)
      | Err _ => None
      end
  | _ => None
  end.

(** The count the arguments give for [name]: that of the last argument
    that names it, and [d] when none does. *)
Fixpoint last_count (name : string) (args : list string) (d : option Z)
  : option Z :=
  match args with
  | [] => d
  | arg :: args' =>
      last_count name args'
        (match parse_arg arg with
         | Some (n, count) => if decide (n = name) then Some count else d
         | None => d
         end)
  end.

End ScaleArgs.

(** ** The actions that pass one call on to the project handle *)

Module Actions.

(** The command line as an action sees it ([*cli.Context]): the flags by
    name and the positional arguments. *)
Record Context := {
  Bool : string -> bool;
  Int : string -> Z;
  String_ : string -> string;
  Args : list string }.

Record options_Down := {
  Down_RemoveVolume : bool;
  Down_RemoveImages : string;
  Down_RemoveOrphans : bool }.

Record options_Build := {
  Build_NoCache : bool;
  Build_ForceRemove : bool;
  Build_Pull : bool }.

Record options_Create := {
  Create_NoRecreate : bool;
  Create_ForceRecreate : bool;
  Create_NoBuild : bool }.

(** A call on the project handle, with its arguments; [p_Delete] records
    whether a confirmation callback is registered. *)
Inductive Call :=
| p_Ps (q : bool) (services : list string)
| p_Port (index : Z) (protocol serviceName privatePort : string)
| p_Stop (timeout : Z) (services : list string)
| p_Down (o : options_Down) (services : list string)
| p_Build (o : options_Build) (services : list string)
| p_Create (o : options_Create) (services : list string)
| p_Start (services : list string)
| p_Restart (timeout : Z) (services : list string)
| p_Log (follow : bool) (services : list string)
| p_Pull (services : list string)
| p_Delete (removeVolume confirm : bool) (services : list string)
| p_Kill (signal : string) (services : list string)
| p_Pause (services : list string)
| p_Unpause (services : list string).

Inductive Effect :=
| Called (call : Call)
| Stdout (text : string).

(** The project handle: the error each call answers with ([None] for
    nil), and the values of the two calls that return one. *)
Record APIProject := {
  answer : Call -> option Error;
  info : bool -> list string -> bool -> string;
  port : Z -> string -> string -> string -> string }.

(** The end of most actions: the error of the call becomes an exit error
    with code 1, no error becomes nil. *)
Definition exit_1 (err : option Error) : option ExitError :=
  match err with
  | Some err => Some (NewExitError (Text err) 1)
  | None => None
  end.

(** Lines 57-65. *)
Definition ProjectPs (p : APIProject) (c : Context)
  : list Effect * option ExitError :=
  let qFlag := Bool c "q" in
  let call := p_Ps qFlag (Args c) in
  match answer p call with
  | Some err => ([Called call], Some (NewExitError (Text err) 1))
  | None =>
      ([Called call; Stdout (info p qFlag (Args c) (negb qFlag))], None)
  end.


(** Lines 225-231. *)
Definition ProjectStop (p : APIProject) (c : Context)
  : list Effect * option ExitError :=
  let call := p_Stop (Int c "timeout") (Args c) in
  ([Called call], Up.ProjectStop (answer p call)).

(** Lines 234-245. *)
Definition ProjectDown (p : APIProject) (c : Context)
  : list Effect * option ExitError :=
  let options :=
    {| Down_RemoveVolume := Bool c "volumes";
       Down_RemoveImages := String_ c "rmi";
       Down_RemoveOrphans := Bool c "remove-orphans" |} in
  let call := p_Down options (Args c) in
  ([Called call], exit_1 (answer p call)).

(** Lines 248-259. *)
Definition ProjectBuild (p : APIProject) (c : Context)
  : list Effect * option ExitError :=
  let config :=
    {| Build_NoCache := Bool c "no-cache";
       Build_ForceRemove := Bool c "force-rm";
       Build_Pull := Bool c "pull" |} in
  let call := p_Build config (Args c) in
  ([Called call], exit_1 (answer p call)).

(** Lines 262-273. *)
Definition ProjectCreate (p : APIProject) (c : Context)
  : list Effect * option ExitError :=
  let options :=
    {| Create_NoRecreate := Bool c "no-recreate";
       Create_ForceRecreate := Bool c "force-recreate";
       Create_NoBuild := Bool c "no-build" |} in
  let call := p_Create options (Args c) in
  ([Called call], exit_1 (answer p call)).

(** Lines 334-340. *)
Definition ProjectStart (p : APIProject) (c : Context)
  : list Effect * option ExitError :=
  let call := p_Start (Args c) in
  ([Called call], exit_1 (answer p call)).

(** Lines 343-349. *)
Definition ProjectRestart (p : APIProject) (c : Context)
  : list Effect * option ExitError :=
  let call := p_Restart (Int c "timeout") (Args c) in
  ([Called call], exit_1 (answer p call)).

(** Lines 352-358. *)
Definition ProjectLog (p : APIProject) (c : Context)
  : list Effect * option ExitError :=
  let call := p_Log (Bool c "follow") (Args c) in
  ([Called call], exit_1 (answer p call)).

(** Lines 361-367: the error counts only without the flag
    ignore-pull-failures. *)
Definition ProjectPull (p : APIProject) (c : Context)
  : list Effect * option ExitError :=
  let call := p_Pull (Args c) in
  ([Called call],
   match answer p call with
   | Some err =>
       if negb (Bool c "ignore-pull-failures")
       then Some (NewExitError (Text err) 1)
       else None
   | None => None
   end).

(** Lines 370-394, over the handle. *)
Definition ProjectDelete (p : APIProject) (c : Context)
  : list Effect * option ExitError :=
  let call :=
    p_Delete (Bool c "v") (negb (Bool c "force")) (Args c) in
  ([Called call],
   Delete.ProjectDelete
     (fun options services =>
        answer p (p_Delete (Delete.RemoveVolume options)
                           (bool_decide
                              (is_Some (Delete.options_BeforeDeleteCallback options)))
                           services))
     (Bool c "v") (Bool c "force") (Args c)).

(** Lines 397-403. *)
Definition ProjectKill (p : APIProject) (c : Context)
  : list Effect * option ExitError :=
  let call := p_Kill (String_ c "signal") (Args c) in
  ([Called call], exit_1 (answer p call)).

(** Lines 406-412. *)
Definition ProjectPause (p : APIProject) (c : Context)
  : list Effect * option ExitError :=
  let call := p_Pause (Args c) in
  ([Called call], exit_1 (answer p call)).

(** Lines 415-421. *)
Definition ProjectUnpause (p : APIProject) (c : Context)
  : list Effect * option ExitError :=
  let call := p_Unpause (Args c) in
  ([Called call], exit_1 (answer p call)).

(** The actions above that take any number of service names, but for
    [ProjectPull]. *)
Definition on_services
  : list (APIProject -> Context -> list Effect * option ExitError) :=
  [ProjectPs; ProjectStop; ProjectDown; ProjectBuild; ProjectCreate;
   ProjectStart; ProjectRestart; ProjectLog; ProjectDelete;
   ProjectKill; ProjectPause; ProjectUnpause].

(** The service names a call is made for. *)
Definition services_of (call : Call) : list string :=
  match call with
  | p_Ps _ l | p_Stop _ l | p_Down _ l | p_Build _ l | p_Create _ l
  | p_Start l | p_Restart _ l | p_Log _ l | p_Pull l | p_Delete _ _ l
  | p_Kill _ l | p_Pause l | p_Unpause l => l
  | p_Port _ _ serviceName _ => [serviceName]
  end.

(** The calls among the effects. *)
Definition calls (effects : list Effect) : list Call :=
  omap (fun e => match e with Called call => Some call | Stdout _ => None end)
       effects.

End Actions.

(** ** Further sample inputs *)

Module MoreSamples.

(** The log stream ends with an error before any signal. *)
Definition log_failed : list Up.Label :=
  [Up.LogReturns (Some "EOF"); Up.SelectErr; Up.DoCheck].

(** The state the schedule [log_failed] ends in. *)
Definition fatal : Up.State :=
  {| Up.signalChan := false; Up.cancelled := false; Up.stops := 0;
     Up.logger := Up.LoggerEnd; Up.handler := Up.ErrCheck (Some "EOF");
     Up.main := Up.Exited1 |}.




(** Scale arguments that name "web" twice. *)
Definition scale_args : list string := ["web=1"; "db=2"; "web=3"].

Definition scale_map : gmap string Z :=
  <[ "web" := 3 ]> (<[ "db" := 2 ]> (<[ "web" := 1 ]> ∅)).

End MoreSamples.
(** * Properties *)

(** ** strconv *)

Lemma parse_digits_Ok_all_digits (s : string) (n m : Z) :
  strconv.parse_digits n s = Ok m -> strconv.all_digits s = true.
Proof.
  revert n. induction s as [|c s IH]; intros n H; [reflexivity|].
  cbn [strconv.parse_digits strconv.all_digits] in *.
  destruct (strconv.is_digit c); cbn [negb] in *; [|discriminate].
  destruct (_ <=? n); [discriminate|].
  destruct (_ || _); [discriminate|].
  cbn. eauto.
Qed.

Lemma ParseUint_Ok_unsigned_decimal (s : string) (m : Z) :
  strconv.ParseUint s = Ok m -> strconv.unsigned_decimal s = true.
Proof.
  destruct s as [|c s]; [discriminate|].
  unfold strconv.ParseUint, strconv.unsigned_decimal.
  apply parse_digits_Ok_all_digits.
Qed.

Lemma ParseInt_body_Ok (neg : bool) (body : string) (n : Z) :
  match strconv.ParseUint body with
  | Err strconv.ErrSyntax => Err strconv.ErrSyntax
  | r =>
      let un := match r with Ok u => u | Err _ => strconv.maxUint64 end in
      let cutoff := 2 ^ (strconv.IntSize - 1) in
      if negb neg && (cutoff <=? un) then Err strconv.ErrRange
      else if neg && (cutoff <? un) then Err strconv.ErrRange
      else Ok (if neg then - un else un)
  end = Ok n ->
  strconv.unsigned_decimal body = true.
Proof.
  destruct (strconv.ParseUint body) as [u|[]] eqn:E.
  - intros _. eapply ParseUint_Ok_unsigned_decimal; eauto.
  - discriminate.
  - destruct neg; vm_compute; discriminate.
Qed.

(** Whatever [Atoi] accepts is an integer in decimal. *)
Lemma Atoi_Ok_decimal (s : string) (n : Z) :
  strconv.Atoi s = Ok n -> strconv.decimal_integer s = true.
Proof.
  unfold strconv.Atoi, strconv.ParseInt, strconv.decimal_integer.
  destruct s as [|c s]; [discriminate|].
  destruct (Ascii.eqb c "+"); [apply ParseInt_body_Ok|].
  destruct (Ascii.eqb c "-"); apply ParseInt_body_Ok.
Qed.

Lemma not_decimal_Atoi_Err (s : string) :
  strconv.decimal_integer s = false -> exists e, strconv.Atoi s = Err e.
Proof.
  intros H. destruct (strconv.Atoi s) as [n|e] eqn:E; [|eauto].
  apply Atoi_Ok_decimal in E. congruence.
Qed.

(** ** The resource conversion *)

Section KuberFacts.
Import api Kuber.

Ltac unfold_M :=
  unfold mbind, M_bind, bind, mret, M_ret, ret, Fatalf, emit, history in *.

Lemma container_ports_Some name l ports tr ns :
  parse_ports l = Some ns ->
  container_ports name l ports tr
  = (tr, Done (ports ++ map Build_ContainerPort ns)).
Proof.
  revert ports ns. induction l as [|port l IH]; intros ports ns; cbn.
  - intros [= <-]. by rewrite app_nil_r.
  - destruct (strconv.Atoi port) as [n|e]; [|discriminate].
    destruct (parse_ports l) as [ns'|]; [|discriminate].
    intros [= <-]. rewrite (IH _ ns') by done. by rewrite <- app_assoc.
Qed.

Lemma container_ports_None name l ports tr :
  parse_ports l = None ->
  exists m, container_ports name l ports tr = (tr, Fatal m).
Proof.
  revert ports. induction l as [|port l IH]; intros ports; cbn; [discriminate|].
  destruct (strconv.Atoi port) as [n|e]; [|by eauto].
  destruct (parse_ports l) as [ns'|]; [discriminate|]. intros _. by apply IH.
Qed.

Lemma service_ports_Some name l ports tr ns :
  parse_ports l = Some ns ->
  service_ports name l ports tr
  = (tr, Done (ports ++ map Build_ServicePort ns)).
Proof.
  revert ports ns. induction l as [|port l IH]; intros ports ns; cbn.
  - intros [= <-]. by rewrite app_nil_r.
  - destruct (strconv.Atoi port) as [n|e]; [|discriminate].
    destruct (parse_ports l) as [ns'|]; [|discriminate].
    intros [= <-]. rewrite (IH _ ns') by done. by rewrite <- app_assoc.
Qed.

Lemma build_ports_Some name service tr ns :
  parse_ports (Ports service) = Some ns ->
  build_ports name service tr
  = (tr, Done (set_rc_ports (map Build_ContainerPort ns) (new_rc name service),
               set_sc_ports (map Build_ServicePort ns) (new_sc name))).
Proof.
  intros H. unfold build_ports, mbind, M_bind, bind.
  rewrite (container_ports_Some _ _ _ _ ns H), (service_ports_Some _ _ _ _ ns H).
  reflexivity.
Qed.

Lemma build_ports_None name service tr :
  parse_ports (Ports service) = None ->
  exists m, build_ports name service tr = (tr, Fatal m).
Proof.
  intros H. unfold build_ports, mbind, M_bind, bind.
  destruct (container_ports_None name _ [] tr H) as [m ->]. eauto.
Qed.

Lemma parse_ports_None_iff l :
  parse_ports l = None <-> exists port, port ∈ l /\ is_Ok (strconv.Atoi port) = false.
Proof.
  induction l as [|port l IH]; cbn.
  - split; [discriminate|]. intros (p & Hp & _). by apply elem_of_nil in Hp.
  - destruct (strconv.Atoi port) as [n|e] eqn:E.
    + destruct (parse_ports l) as [ns|].
      * split; [discriminate|]. intros (p & Hp & Hbad).
        apply elem_of_cons in Hp as [->|Hp]; [by rewrite E in Hbad|].
        destruct IH as [_ IH]. discriminate IH. eauto.
      * split; [|done]. intros _. destruct IH as [IH _].
        destruct IH as (p & Hp & Hbad); [done|]. exists p. split; [by right|done].
    + split; [|done]. intros _. exists port. rewrite E. split; [by left|done].
Qed.

(** The stages that only compute leave the events alone, and what they
    compute does not depend on the events. *)
Lemma container_ports_pure name l ports tr :
  container_ports name l ports tr = (tr, (container_ports name l ports []).2).
Proof.
  revert ports. induction l as [|port l IH]; intros ports; cbn; [done|].
  destruct (strconv.Atoi port); [apply IH | done].
Qed.

Lemma service_ports_pure name l ports tr :
  service_ports name l ports tr = (tr, (service_ports name l ports []).2).
Proof.
  revert ports. induction l as [|port l IH]; intros ports; cbn; [done|].
  destruct (strconv.Atoi port); [apply IH | done].
Qed.

Lemma build_ports_pure name service tr :
  build_ports name service tr = (tr, (build_ports name service []).2).
Proof.
  unfold build_ports. unfold_M.
  rewrite (container_ports_pure _ _ _ tr).
  destruct (container_ports name (Ports service) [] []) as [tr1 [ports|m|]]; cbn; try done.
  rewrite (service_ports_pure _ _ _ tr), (service_ports_pure _ _ _ tr1).
  by destruct (service_ports name (Ports service) [] []) as [tr2 [sp|m|]].
Qed.

Lemma build_pure name service tr :
  build name service tr = (tr, (build name service []).2).
Proof.
  unfold build. unfold_M.
  rewrite (build_ports_pure _ _ tr).
  destruct (build_ports name service []) as [tr1 [[rc sc]|m|]]; cbn; try done.
  unfold configure_restart. unfold_M.
  by destruct (restart_policy (Restart service)).
Qed.

(** The two create calls always come back. *)
Lemma creates_spec client rc sc tr :
  (create_rc client rc;; create_sc client sc) tr
  = (tr ++ submit client rc sc tr, Done tt).
Proof.
  unfold create_rc, create_sc, submit. unfold_M. cbn.
  destruct (ReplicationControllers_Create client tr rc) as [e1|]; cbn;
    [rewrite <- !app_assoc; cbn;
     destruct (Services_Create client (tr ++ [CreateRC rc; Println e1]) sc)
    |destruct (Services_Create client (tr ++ [CreateRC rc]) sc)]; cbn;
    rewrite <- ?app_assoc; reflexivity.
Qed.

(** The loop body, case by case. *)
Lemma convert_service_spec env client name service tr :
  convert_service env client name service tr =
  match (build name service []).2 with
  | Done (rc, sc) =>
      match MarshalIndent env rc with
      | Err err =>
          (tr, Fatal (Sprintf "Failed to marshal the replication controller: %v"
                              [AErr err]))
      | Ok _ => (tr ++ submit client rc sc tr, Done tt)
      end
  | Fatal m => (tr, Fatal m)
  | Panic => (tr, Panic)
  end.
Proof.
  unfold convert_service.
  change (mbind ?k (build name service) tr) with (bind k (build name service) tr).
  unfold bind at 1. rewrite (build_pure _ _ tr).
  destruct (build name service []) as [tr1 [[rc sc]|m|]]; cbn; try done.
  destruct (MarshalIndent env rc); [|done].
  apply creates_spec.
Qed.

Lemma restart_policy_None restart :
  restart_policy restart = None <-> ~ known_restart restart.
Proof.
  unfold restart_policy, known_restart.
  repeat case_decide; split; try discriminate; try done; try tauto.
Qed.

(** What lines 111-185 come to. *)
Lemma build_cases name service :
  match parse_ports (Ports service), restart_policy (Restart service) with
  | Some ns, Some p =>
      (build name service []).2
      = Done (set_rc_restart p
                (set_rc_ports (map Build_ContainerPort ns) (new_rc name service)),
              set_sc_ports (map Build_ServicePort ns) (new_sc name))
  | Some ns, None =>
      (build name service []).2
      = Fatal (Sprintf "Unknown restart policy %s for service %s"
                       [AStr (Restart service); AStr name])
  | None, _ => exists m, (build name service []).2 = Fatal m
  end.
Proof.
  unfold build. unfold_M.
  destruct (parse_ports (Ports service)) as [ns|] eqn:E.
  - rewrite (build_ports_Some _ _ _ ns E). unfold configure_restart. unfold_M.
    by destruct (restart_policy (Restart service)).
  - destruct (build_ports_None name service [] E) as [m ->]. eauto.
Qed.

Lemma build_no_Panic name service : (build name service []).2 <> Panic.
Proof.
  pose proof (build_cases name service) as H.
  destruct (parse_ports (Ports service));
    [destruct (restart_policy (Restart service)) | destruct H as [m H]];
    rewrite H; discriminate.
Qed.

Lemma descriptors_Some name service rc sc :
  descriptors name service = Some (rc, sc) <->
  exists ns p,
    parse_ports (Ports service) = Some ns
    /\ restart_policy (Restart service) = Some p
    /\ rc = set_rc_restart p
              (set_rc_ports (map Build_ContainerPort ns) (new_rc name service))
    /\ sc = set_sc_ports (map Build_ServicePort ns) (new_sc name).
Proof.
  unfold descriptors. pose proof (build_cases name service) as H.
  destruct (parse_ports (Ports service)) as [ns|];
    [destruct (restart_policy (Restart service)) as [p|] | destruct H as [m H]];
    rewrite H; clear H; split;
    try discriminate; try (by intros (? & ? & ? & ? & _)).
  - intros [= <- <-]. by exists ns, p.
  - by intros (? & ? & [= <-] & [= <-] & -> & ->).
Qed.

Lemma descriptors_names name service rc sc :
  descriptors name service = Some (rc, sc) ->
  Name (RC_ObjectMeta rc) = name /\ Name (Service_ObjectMeta sc) = name.
Proof. intros (ns & p & _ & _ & -> & ->)%descriptors_Some. done. Qed.

Lemma submit_for client rc sc tr name e :
  Name (RC_ObjectMeta rc) = name -> Name (Service_ObjectMeta sc) = name ->
  e ∈ submit client rc sc tr ->
  submitted_for e = Some name \/ submitted_for e = None.
Proof.
  intros Hrc Hsc. unfold submit, printed.
  destruct (ReplicationControllers_Create _ _ _), (Services_Create _ _ _); cbn;
    rewrite ?elem_of_cons, ?elem_of_nil; intros H;
    repeat destruct H as [->|H]; cbn; try done; rewrite ?Hrc, ?Hsc; auto.
Qed.

Lemma for_range_cons body name service l tr :
  for_range body ((name, service) :: l) tr =
  match body name service tr with
  | (tr', Done _) => for_range body l tr'
  | (tr', Fatal m) => (tr', Fatal m)
  | (tr', Panic) => (tr', Panic)
  end.
Proof. reflexivity. Qed.

Lemma descriptors_None name service :
  descriptors name service = None ->
  exists m, (build name service []).2 = Fatal m.
Proof.
  unfold descriptors. pose proof (build_no_Panic name service).
  destruct (build name service []).2; [discriminate | eauto | done].
Qed.

(** A service whose descriptors cannot be built stops the loop in
    [Fatalf], at the latest when its turn comes, and nothing is ever
    submitted for it. *)
Lemma for_range_blocked env client name service l tr :
  (name, service) ∈ l ->
  NoDup l.*1 ->
  descriptors name service = None ->
  (forall e, e ∈ tr -> submitted_for e <> Some name) ->
  (exists m, (for_range (convert_service env client) l tr).2 = Fatal m)
  /\ (forall e, e ∈ (for_range (convert_service env client) l tr).1 ->
      submitted_for e <> Some name).
Proof.
  intros Hin Hnd Hnone. revert tr Hin Hnd.
  induction l as [|[n s] l IH]; intros tr Hin Hnd Htr.
  { by apply elem_of_nil in Hin. }
  rewrite for_range_cons, convert_service_spec.
  apply NoDup_cons in Hnd as [Hn Hnd].
  apply elem_of_cons in Hin as [[= <- <-]|Hin].
  - destruct (descriptors_None _ _ Hnone) as [m ->]. cbn. eauto.
  - assert (n <> name) as Hne.
    { intros ->. apply Hn. apply list_elem_of_fmap. by exists (name, service). }
    destruct (build n s []).2 as [[rc sc]|m|] eqn:E; cbn; [| by eauto |].
    + destruct (MarshalIndent env rc); cbn; [| by eauto].
      apply IH; [done..|]. intros e [He|He]%elem_of_app; [by apply Htr|].
      assert (descriptors n s = Some (rc, sc)) as [Hrc Hsc]%descriptors_names
        by (unfold descriptors; by rewrite E).
      destruct (submit_for _ _ _ _ n e Hrc Hsc He) as [-> | ->]; congruence.
    + by destruct (build_no_Panic n s).
Qed.

(** The visiting order of a map names every service once. *)
Lemma range_order (configs : gmap string ServiceConfig)
    (order : list (string * ServiceConfig)) name service :
  order ≡ₚ map_to_list configs ->
  configs !! name = Some service ->
  (name, service) ∈ order /\ NoDup order.*1.
Proof.
  intros Hp Hl. split.
  - rewrite Hp. by apply elem_of_map_to_list.
  - rewrite Hp. apply NoDup_fst_map_to_list.
Qed.

Lemma ProjectKuber_blocked env client configs name service :
  setup env = Done (client, configs) ->
  range env configs ≡ₚ map_to_list configs ->
  configs !! name = Some service ->
  descriptors name service = None ->
  (exists m, (ProjectKuber env).2 = Fatal m)
  /\ (forall e, e ∈ (ProjectKuber env).1 -> submitted_for e <> Some name).
Proof.
  intros Hs Hp Hl Hd. unfold ProjectKuber. rewrite Hs.
  destruct (range_order _ _ _ _ Hp Hl) as [Hin Hnd].
  apply (for_range_blocked env client name service); try done.
  intros e He. by apply elem_of_nil in He.
Qed.

(** C1: a service whose restart-policy string is none of the four the
    switch knows makes the conversion end in [Fatalf], and no create call
    (replication controller or service) is ever made for that service. *)
Theorem unknown_restart_policy_is_fatal env client configs name service :
  setup env = Done (client, configs) ->
  range env configs ≡ₚ map_to_list configs ->
  configs !! name = Some service ->
  ~ known_restart (Restart service) ->
  (exists m, (ProjectKuber env).2 = Fatal m)
  /\ (forall e, e ∈ (ProjectKuber env).1 -> submitted_for e <> Some name).
Proof.
  intros Hs Hp Hl Hr. apply (ProjectKuber_blocked env client configs name service); try done.
  apply restart_policy_None in Hr. unfold descriptors.
  pose proof (build_cases name service) as H. rewrite Hr in H.
  destruct (parse_ports (Ports service)); [by rewrite H|].
  destruct H as [m ->]. done.
Qed.

(** C2: a service with a port string that is no integer in decimal makes
    the conversion end in [Fatalf], and no create call is ever made for
    that service. *)
Theorem non_numeric_port_is_fatal env client configs name service port :
  setup env = Done (client, configs) ->
  range env configs ≡ₚ map_to_list configs ->
  configs !! name = Some service ->
  port ∈ Ports service ->
  strconv.decimal_integer port = false ->
  (exists m, (ProjectKuber env).2 = Fatal m)
  /\ (forall e, e ∈ (ProjectKuber env).1 -> submitted_for e <> Some name).
Proof.
  intros Hs Hp Hl Hport Hbad.
  apply (ProjectKuber_blocked env client configs name service); try done.
  assert (parse_ports (Ports service) = None) as Hn.
  { apply parse_ports_None_iff. exists port. split; [done|].
    destruct (not_decimal_Atoi_Err _ Hbad) as [e ->]. done. }
  unfold descriptors. pose proof (build_cases name service) as H.
  rewrite Hn in H. destruct H as [m ->]. done.
Qed.

(** Every event of the loop was there before or belongs to the submission
    of the descriptors of one of the services. *)
Lemma for_range_events env client l tr e :
  e ∈ (for_range (convert_service env client) l tr).1 ->
  e ∈ tr
  \/ exists name service rc sc,
       (name, service) ∈ l /\ descriptors name service = Some (rc, sc)
       /\ (e = CreateRC rc \/ e = CreateSVC sc \/ exists err, e = Println err).
Proof.
  revert tr. induction l as [|[n s] l IH]; intros tr; [by left|].
  rewrite for_range_cons, convert_service_spec.
  destruct (build n s []).2 as [[rc sc]|m|] eqn:E; cbn; [|by left..].
  destruct (MarshalIndent env rc); cbn; [|by left].
  intros [[He|He]%elem_of_app|(n' & s' & rc' & sc' & Hin & Hd & He)]%IH.
  - by left.
  - right. exists n, s, rc, sc. split; [by left|].
    split; [unfold descriptors; by rewrite E|].
    revert He. unfold submit, printed.
    destruct (ReplicationControllers_Create _ _ _), (Services_Create _ _ _); cbn;
      rewrite ?elem_of_cons, ?elem_of_nil; intros H;
      repeat destruct H as [->|H]; eauto; done.
  - right. exists n', s', rc', sc'. split; [by right|done].
Qed.

Lemma ProjectKuber_events env e :
  e ∈ (ProjectKuber env).1 ->
  exists name service rc sc,
    descriptors name service = Some (rc, sc)
    /\ (e = CreateRC rc \/ e = CreateSVC sc \/ exists err, e = Println err).
Proof.
  unfold ProjectKuber. destruct (setup env) as [[client configs]|m|]; cbn;
    try (by intros ?%elem_of_nil).
  intros [?%elem_of_nil|(n & s & rc & sc & _ & H)]%for_range_events; [done|].
  by exists n, s, rc, sc.
Qed.

(** C3: the replication controller and the service that [ProjectKuber]
    builds for a service carry the same label selector, the map from
    "service" to the name of the service: as first built, after each of the
    later assignments, and in every create call the conversion makes. *)
Theorem descriptors_share_selector (name : string) (service : ServiceConfig) :
  RC_Selector (RC_Spec (new_rc name service)) = {[ "service" := name ]}
  /\ Service_Selector (Service_Spec (new_sc name)) = {[ "service" := name ]}
  /\ (forall ports p rc,
        RC_Selector (RC_Spec (set_rc_ports ports rc)) = RC_Selector (RC_Spec rc)
        /\ RC_Selector (RC_Spec (set_rc_restart p rc)) = RC_Selector (RC_Spec rc))
  /\ (forall ports sc,
        Service_Selector (Service_Spec (set_sc_ports ports sc))
        = Service_Selector (Service_Spec sc))
  /\ (forall rc sc,
        descriptors name service = Some (rc, sc) ->
        RC_Selector (RC_Spec rc) = {[ "service" := name ]}
        /\ Service_Selector (Service_Spec sc) = RC_Selector (RC_Spec rc))
  /\ (forall env,
        (forall rc, CreateRC rc ∈ (ProjectKuber env).1 ->
           RC_Selector (RC_Spec rc) = {[ "service" := Name (RC_ObjectMeta rc) ]})
        /\ (forall sc, CreateSVC sc ∈ (ProjectKuber env).1 ->
           Service_Selector (Service_Spec sc)
           = {[ "service" := Name (Service_ObjectMeta sc) ]})).
Proof.
  split_and!; try done.
  - by intros rc sc (ns & p & _ & _ & -> & ->)%descriptors_Some.
  - intros env. split.
    + intros rc (n & s & rc' & sc' & Hd & [[= ->]|[[=]|[err [=]]]])%ProjectKuber_events.
      by apply descriptors_Some in Hd as (ns & p & _ & _ & -> & ->).
    + intros sc (n & s & rc' & sc' & Hd & [[=]|[[= ->]|[err [=]]]])%ProjectKuber_events.
      by apply descriptors_Some in Hd as (ns & p & _ & _ & -> & ->).
Qed.

Lemma parse_ports_Forall l :
  Forall (fun port => is_Ok (strconv.Atoi port) = true) l ->
  exists ns, parse_ports l = Some ns /\ length ns = length l
    /\ forall i port, l !! i = Some port ->
         exists n, strconv.Atoi port = Ok n /\ ns !! i = Some n.
Proof.
  induction 1 as [|port l Hp _ (ns & Hns & Hlen & Hi)]; cbn.
  - exists []. by split_and!.
  - destruct (strconv.Atoi port) as [n|] eqn:E; [|done]. rewrite Hns.
    exists (n :: ns). split_and!; [done|cbn; by rewrite Hlen|].
    intros [|i] port'; cbn; [|by apply Hi]. intros [= <-]. eauto.
Qed.

(** C4: when every port string of a service parses, the service ports of
    its service descriptor mirror the container ports of its replication
    controller: both lists are as long as the port list of the service
    definition, and at each index both hold the number the port string at
    that index parses to.  The submitted descriptors hold the same lists. *)
Theorem service_ports_mirror_container_ports (name : string)
    (service : ServiceConfig) :
  Forall (fun port => is_Ok (strconv.Atoi port) = true) (Ports service) ->
  exists rc sc c,
    (build_ports name service []).2 = Done (rc, sc)
    /\ PodSpec_Containers (PodTemplateSpec_Spec (Template (RC_Spec rc))) = [c]
    /\ length (Service_Ports (Service_Spec sc)) = length (Container_Ports c)
    /\ length (Container_Ports c) = length (Ports service)
    /\ (forall i port, Ports service !! i = Some port ->
         exists n, strconv.Atoi port = Ok n
           /\ Container_Ports c !! i = Some (Build_ContainerPort n)
           /\ Service_Ports (Service_Spec sc) !! i = Some (Build_ServicePort n))
    /\ (forall rc' sc', descriptors name service = Some (rc', sc') ->
         PodSpec_Containers (PodTemplateSpec_Spec (Template (RC_Spec rc'))) = [c]
         /\ Service_Ports (Service_Spec sc') = Service_Ports (Service_Spec sc)).
Proof.
  intros (ns & Hns & Hlen & Hi)%parse_ports_Forall.
  rewrite (build_ports_Some _ _ _ ns Hns). cbn.
  eexists _, _, _. split; [reflexivity|]. cbn. split; [reflexivity|].
  unfold set_Container_Ports; cbn. rewrite !length_map. split_and!; try done.
  - intros i port (n & Hn & Hl)%Hi. exists n. rewrite !list_lookup_fmap, Hl. done.
  - intros rc' sc' (ns' & p & Hns' & _ & -> & ->)%descriptors_Some.
    rewrite Hns in Hns'. by injection Hns' as <-.
Qed.

(** C5: the restart-policy mapping is exactly this: the empty string and
    "always" give Always, "no" gives Never, "on-failure" gives OnFailure,
    and no other string gives a policy; the conversion stores the policy
    in the replication controller, and without one it ends in [Fatalf]. *)
Theorem restart_policy_mapping :
  (forall restart p,
     restart_policy restart = Some p <->
     (p = RestartPolicyAlways /\ (restart = "" \/ restart = "always"))
     \/ (p = RestartPolicyNever /\ restart = "no")
     \/ (p = RestartPolicyOnFailure /\ restart = "on-failure"))
  /\ (forall restart, restart_policy restart = None <-> ~ known_restart restart)
  /\ (forall name service rc tr,
        configure_restart name service rc tr =
        (tr, match restart_policy (Restart service) with
             | Some p => Done (set_rc_restart p rc)
             | None => Fatal (Sprintf "Unknown restart policy %s for service %s"
                                      [AStr (Restart service); AStr name])
             end))
  /\ (forall p rc,
        PodSpec_RestartPolicy
          (PodTemplateSpec_Spec (Template (RC_Spec (set_rc_restart p rc))))
        = Some p).
Proof.
  split_and!.
  - intros restart p. unfold restart_policy.
    repeat case_decide; split; intros Hp; intuition congruence.
  - apply restart_policy_None.
  - intros. unfold configure_restart. by destruct (restart_policy _).
  - done.
Qed.

(** *** Failed submissions *)

Lemma submissions_app tr1 tr2 :
  submissions (tr1 ++ tr2) = submissions tr1 ++ submissions tr2.
Proof. apply List.filter_app. Qed.

Lemma submissions_submit client rc sc tr :
  submissions (submit client rc sc tr) = [CreateRC rc; CreateSVC sc].
Proof.
  unfold submit, printed.
  by destruct (ReplicationControllers_Create _ _ _), (Services_Create _ _ _).
Qed.

(** Two runs of the loop that differ in the client only submit the same
    and end the same. *)
Lemma for_range_independent env1 env2 c1 c2 l tr1 tr2 :
  MarshalIndent env1 = MarshalIndent env2 ->
  submissions tr1 = submissions tr2 ->
  submissions (for_range (convert_service env1 c1) l tr1).1
  = submissions (for_range (convert_service env2 c2) l tr2).1
  /\ (for_range (convert_service env1 c1) l tr1).2
     = (for_range (convert_service env2 c2) l tr2).2.
Proof.
  intros Hm. revert tr1 tr2. induction l as [|[n s] l IH]; intros tr1 tr2 Htr.
  { done. }
  rewrite !for_range_cons, !convert_service_spec, Hm.
  destruct (build n s []).2 as [[rc sc]|m|]; cbn [fst snd]; try done.
  destruct (MarshalIndent env2 rc); cbn [fst snd]; [|done].
  apply IH. by rewrite !submissions_app, !submissions_submit, Htr.
Qed.

Lemma setup_with_client env :
  exists o : Outcome (gmap string ServiceConfig),
    forall c, setup (with_client env c)
              = match o with
                | Done configs => Done (c, configs)
                | Fatal m => Fatal m
                | Panic => Panic
                end.
Proof.
  unfold setup, with_client; cbn.
  destruct (Parse env _) as [configs|err]; [|by eexists (Fatal _)].
  destruct (MkdirAll env _); [by eexists (Fatal _)|].
  destruct (ReadFile env _) as [server|err]; [|by eexists (Fatal _)].
  case_decide; [by eexists (Fatal _)|]. by exists (Done configs).
Qed.

Lemma failures_printed_submit client rc sc tr :
  failures_printed client tr ->
  failures_printed client (tr ++ submit client rc sc tr).
Proof.
  intros Htr pre e post err Hsplit Hans.
  apply app_eq_app in Hsplit as [mid [[-> Hblock]|[-> Hblock]]].
  - (* the call was there before, or is the first new one *)
    destruct mid as [|e1 mid]; cbn [app] in Hblock.
    + rewrite app_nil_r in *. revert Hblock Hans. unfold submit.
      intros [= -> ->]. cbn. intros ->. cbn. eauto.
    + injection Hblock as -> ->.
      destruct (Htr pre e1 mid err eq_refl Hans) as [post' ->]. cbn. eauto.
  - (* the call is one of the new ones *)
    revert Hblock. unfold submit.
    destruct mid as [|e1 mid]; cbn [app]; [intros [= <- <-]|intros [= <- Hblock]].
    { rewrite app_nil_r in Hans. cbn in Hans. rewrite Hans. cbn. eauto. }
    revert Hans Hblock.
    destruct (ReplicationControllers_Create client tr rc) as [err1|]; cbn.
    + destruct mid as [|e2 mid]; cbn; [by intros ? [= <- <-]|].
      destruct mid as [|e3 mid]; cbn; [intros Hans [= <- <- <-]|].
      { cbn in Hans. rewrite Hans. cbn. eauto. }
      destruct (Services_Create client _ sc); cbn; intros ? [= <- <- Hmid].
      * destruct mid as [|e4 mid]; cbn in Hmid; [by injection Hmid as <- <-|].
        by destruct mid.
      * by destruct mid.
    + destruct mid as [|e2 mid]; cbn; [intros Hans [= <- <-]|].
      { cbn in Hans. rewrite Hans. cbn. eauto. }
      destruct (Services_Create client _ sc); cbn; intros ? [= <- Hmid].
      * destruct mid as [|e3 mid]; cbn in Hmid; [by injection Hmid as <- <-|].
        by destruct mid.
      * by destruct mid.
Qed.

Lemma for_range_failures_printed env client l tr :
  failures_printed client tr ->
  failures_printed client (for_range (convert_service env client) l tr).1.
Proof.
  revert tr. induction l as [|[n s] l IH]; intros tr Htr; [done|].
  rewrite for_range_cons, convert_service_spec.
  destruct (build n s []).2 as [[rc sc]|m|]; cbn [fst snd]; try done.
  destruct (MarshalIndent env rc); cbn [fst snd]; [|done].
  by apply IH, failures_printed_submit.
Qed.

Lemma for_range_convertible env client l tr :
  (forall name service, (name, service) ∈ l -> convertible env name service) ->
  for_range (convert_service env client) l tr = (submit_all client l tr, Done tt).
Proof.
  revert tr. induction l as [|[n s] l IH]; intros tr Hall; [done|].
  rewrite for_range_cons, convert_service_spec. cbn [submit_all].
  destruct (Hall n s) as (rc & sc & Hd & Hm); [by left|]. rewrite Hd.
  unfold descriptors in Hd.
  destruct (build n s []).2 as [d|m|]; try discriminate. injection Hd as ->.
  destruct (MarshalIndent env rc); [|discriminate].
  apply IH. intros n' s' Hin. apply Hall. by right.
Qed.

Lemma submit_all_extends client l tr e :
  e ∈ tr -> e ∈ submit_all client l tr.
Proof.
  revert tr. induction l as [|[n s] l IH]; intros tr He; [done|].
  cbn [submit_all]. destruct (descriptors n s) as [[rc sc]|]; [|done].
  apply IH, elem_of_app. by left.
Qed.

Lemma submit_all_contains env client l tr name service :
  (forall name service, (name, service) ∈ l -> convertible env name service) ->
  (name, service) ∈ l ->
  exists rc sc,
    descriptors name service = Some (rc, sc)
    /\ CreateRC rc ∈ submit_all client l tr
    /\ CreateSVC sc ∈ submit_all client l tr.
Proof.
  revert tr. induction l as [|[n s] l IH]; intros tr Hall Hin.
  { by apply elem_of_nil in Hin. }
  apply elem_of_cons in Hin as [[= <- <-]|Hin].
  - destruct (Hall name service) as (rc & sc & Hd & _); [by left|].
    exists rc, sc. cbn [submit_all]. rewrite Hd. split; [done|].
    split; apply submit_all_extends, elem_of_app; right; unfold submit.
    + by left.
    + apply elem_of_app. right. by left.
  - destruct (Hall n s) as (rc & sc & Hd & _); [by left|].
    cbn [submit_all]. rewrite Hd. apply IH; [|done].
    intros n' s' Hin'. apply Hall. by right.
Qed.

(** C7: what the cluster answers to the create calls changes neither which
    calls the conversion makes nor how it ends; every failed create call
    is followed at once by the print of its error; and when nothing else
    stops the loop (every service has descriptors the encoder accepts), the
    conversion returns, and it has submitted the replication controller and
    the service of every service of the compose file, each service in its
    turn, whatever the cluster answered before. *)
Theorem submission_failure_does_not_abort :
  (forall env c1 c2,
     submissions (ProjectKuber (with_client env c1)).1
     = submissions (ProjectKuber (with_client env c2)).1
     /\ (ProjectKuber (with_client env c1)).2
        = (ProjectKuber (with_client env c2)).2)
  /\ (forall env client configs,
        setup env = Done (client, configs) ->
        failures_printed client (ProjectKuber env).1)
  /\ (forall env client configs,
        setup env = Done (client, configs) ->
        (forall name service,
           (name, service) ∈ range env configs -> convertible env name service) ->
        (ProjectKuber env).2 = Done tt
        /\ (ProjectKuber env).1 = submit_all client (range env configs) []
        /\ (forall name service,
              (name, service) ∈ range env configs ->
              exists rc sc,
                descriptors name service = Some (rc, sc)
                /\ CreateRC rc ∈ (ProjectKuber env).1
                /\ CreateSVC sc ∈ (ProjectKuber env).1)).
Proof.
  split_and!.
  - intros env c1 c2. unfold ProjectKuber.
    destruct (setup_with_client env) as [o Ho]. rewrite !Ho.
    destruct o as [configs|m|]; [|done..].
    by apply for_range_independent.
  - intros env client configs Hs. unfold ProjectKuber. rewrite Hs.
    apply for_range_failures_printed.
    intros pre e post err Hnil. by destruct pre.
  - intros env client configs Hs Hall. unfold ProjectKuber. rewrite Hs.
    rewrite (for_range_convertible _ _ _ _ Hall). split_and!; [done..|].
    intros name service Hin. by apply (submit_all_contains env).
Qed.

End KuberFacts.

(** ** The scale action *)

Section ScaleFacts.
Import Scale.

Lemma substring_all (s : string) : String.substring 0 (String.length s) s = s.
Proof. induction s as [|c s IH]; cbn; [done | by rewrite IH]. Qed.

Lemma prefix_split (sep s : string) :
  String.prefix sep s = true ->
  s = String.append sep
        (String.substring (String.length sep)
                          (String.length s - String.length sep) s).
Proof.
  revert s. induction sep as [|c sep IH]; intros s; cbn.
  - intros _. by rewrite Nat.sub_0_r, substring_all.
  - destruct s as [|c' s]; [discriminate|]. simpl.
    destruct (ascii_dec c c') as [->|]; [|discriminate].
    intros H. rewrite (IH s H) at 1. reflexivity.
Qed.

(** [cut] really cuts at an occurrence of the separator. *)
Lemma cut_Some (s sep a b : string) :
  strings.cut s sep = Some (a, b) ->
  s = String.append a (String.append sep b).
Proof.
  revert a b. induction s as [|c s IH]; intros a b; cbn [strings.cut].
  - destruct (String.prefix sep "") eqn:E; [|discriminate].
    intros [= <- <-]. by apply prefix_split.
  - destruct (String.prefix sep (String c s)) eqn:E.
    + intros [= <- <-]. by apply prefix_split.
    + destruct (strings.cut s sep) as [[a' b']|]; [|discriminate].
      intros [= <- <-]. rewrite (IH a' b' eq_refl) at 1. reflexivity.
Qed.

Lemma SplitN_2 (arg name v : string) :
  strings.SplitN arg "=" 2 = [name; v] ->
  arg = String.append name (String.append "=" v).
Proof.
  cbn [strings.SplitN]. destruct (strings.cut arg "=") as [[a b]|] eqn:E;
    [|discriminate].
  intros [= <- <-]. by apply cut_Some.
Qed.

(** An argument the loop accepts has the form name=integer. *)
Lemma accepted_name_eq_integer (arg name v : string) (count : Z) :
  strings.SplitN arg "=" 2 = [name; v] ->
  strconv.Atoi v = Ok count ->
  name_eq_integer arg.
Proof.
  intros Hs Ha. exists name, v. split; [by apply SplitN_2|].
  by apply (Atoi_Ok_decimal v count).
Qed.

Lemma scale_args_malformed (args : list string) (m : gmap string Z) :
  Exists (fun arg => ~ name_eq_integer arg) args ->
  exists msg, scale_args args m = Err (NewExitError msg 2).
Proof.
  intros H. revert m. induction H as [arg args Hbad|arg args _ IH]; intros m;
    cbn [scale_args].
  - destruct (strings.SplitN arg "=" 2) as [|name [|v [|x kv]]] eqn:Es; eauto.
    destruct (strconv.Atoi v) as [count|err] eqn:Ea; eauto.
    destruct Hbad. by apply (accepted_name_eq_integer arg name v count).
  - destruct (strings.SplitN arg "=" 2) as [|name [|v [|x kv]]] eqn:Es; eauto.
    destruct (strconv.Atoi v) as [count|err] eqn:Ea; eauto.
Qed.

(** C6: when some argument of the scale action does not have the form
    name=integer, the action returns an exit error with code 2 and never
    calls [p.Scale]. *)
Theorem malformed_scale_argument_exits_2
    (Scale : Z -> gmap string Z -> option Error) (timeout : Z)
    (args : list string) :
  Exists (fun arg => ~ name_eq_integer arg) args ->
  exists msg, ProjectScale Scale timeout args = ([], Some (NewExitError msg 2)).
Proof.
  intros H. unfold ProjectScale.
  destruct (scale_args_malformed args ∅ H) as [msg ->]. eauto.
Qed.

End ScaleFacts.

(** ** The run action *)

(** C10: the guard "No service specified" of the run action fires exactly
    when there is one argument; with no argument at all it does not fire,
    and the action goes on to index element 0 of the empty argument list,
    which panics before [p.Run] is called. *)
Theorem run_guard_fires_on_one_argument
    (Run : string -> list string -> Z * option Error) (args : list string) :
  ((exists m, (Run.ProjectRun Run args).2 = Run.Fatal m) <-> length args = 1%nat)
  /\ (length args = 1%nat ->
      Run.ProjectRun Run args = ([], Run.Fatal (Text "No service specified")))
  /\ Run.ProjectRun Run [] = ([], Run.IndexOutOfRange 0 0).
Proof.
  unfold Run.ProjectRun. split_and!.
  - case_decide as Hlen; [split; eauto|].
    split; [|done]. intros [m Hm]. revert Hm.
    destruct (args !! 0%nat); [|discriminate].
    destruct (Run _ _) as [exitCode [err|]]; discriminate.
  - intros Hlen. by rewrite decide_True.
  - reflexivity.
Qed.

(** ** The confirmation callback of the delete action *)

Section DeleteFacts.
Import fmt Delete.

Lemma isSpace_newline : isSpace newline = true.
Proof. reflexivity. Qed.

(** A list of runes without a newline is its own first line. *)
Lemma first_line_app (a b : list rune) :
  newline ∉ a -> first_line (a ++ b) = a ++ first_line b.
Proof.
  induction a as [|r a IH]; intros Hn; cbn; [done|].
  apply not_elem_of_cons in Hn as [Hr Hn].
  destruct (N.eqb_spec r newline); [congruence|]. by rewrite IH.
Qed.

Lemma first_line_stop (b : list rune) :
  b = [] \/ (exists b', b = newline :: b') -> first_line b = [].
Proof. by intros [->|[b' ->]]. Qed.

(** Standard input is its first line, followed by nothing or by a newline. *)
Lemma first_line_split (stdin : list rune) :
  exists rest, stdin = first_line stdin ++ rest
    /\ (newline ∉ first_line stdin)
    /\ (rest = [] \/ exists rest', rest = newline :: rest').
Proof.
  induction stdin as [|r stdin (rest & Heq & Hn & Hrest)]; cbn.
  - exists []. split_and!; [done| |by left]. by intros ?%elem_of_nil.
  - destruct (N.eqb_spec r newline) as [->|Hr].
    + exists (newline :: stdin). split_and!; [done| |by eauto].
      by intros ?%elem_of_nil.
    + exists rest. split_and!; [cbn; by rewrite <- Heq| |done].
      by apply not_elem_of_cons.
Qed.

Lemma SkipSpace_Ok (stdin input : list rune) :
  SkipSpace stdin = Ok input ->
  exists pre, stdin = pre ++ input
    /\ Forall (fun r => isSpace r = true) pre /\ (newline ∉ pre).
Proof.
  revert input. induction stdin as [|r stdin IH]; intros input; cbn.
  - intros [= <-]. exists []. split_and!; [done..|]. by intros ?%elem_of_nil.
  - destruct (N.eqb_spec r newline) as [->|Hr]; [discriminate|].
    destruct (isSpace r) eqn:Es.
    + intros (pre & -> & Hpre & Hn)%IH. exists (r :: pre).
      split_and!; [done|by constructor|by apply not_elem_of_cons].
    + intros [= <-]. exists []. split_and!; [done..|]. by intros ?%elem_of_nil.
Qed.

Lemma token_spec (input word rest : list rune) :
  token input = (word, rest) ->
  input = word ++ rest /\ Forall (fun r => isSpace r = false) word.
Proof.
  revert word rest. induction input as [|r input IH]; intros word rest; cbn.
  - by intros [= <- <-].
  - destruct (isSpace r) eqn:Es; [by intros [= <- <-]|].
    destruct (token input) as [w rest'].
    destruct (IH w rest' eq_refl) as [-> Hw].
    intros [= <- <-]. split; [done|by constructor].
Qed.

Lemma end_of_line_Ok (rest rest' : list rune) :
  end_of_line rest = Ok rest' ->
  exists post, Forall (fun r => isSpace r = true) post /\ (newline ∉ post)
    /\ (rest = post \/ rest = post ++ newline :: rest').
Proof.
  revert rest'. induction rest as [|r rest IH]; intros rest'; cbn.
  - intros _. exists []. split_and!; [done| |by left]. by intros ?%elem_of_nil.
  - destruct (N.eqb_spec r newline) as [->|Hr].
    + intros [= <-]. exists []. split_and!; [done| |by right].
      by intros ?%elem_of_nil.
    + destruct (isSpace r) eqn:Es; [|discriminate].
      intros (post & Hpost & Hn & Hrest)%IH. exists (r :: post).
      split_and!; [by constructor|by apply not_elem_of_cons|].
      destruct Hrest as [->| ->]; [by left|by right].
Qed.

Lemma not_space_not_newline (word : list rune) :
  Forall (fun r => isSpace r = false) word -> newline ∉ word.
Proof.
  intros H Hin. rewrite Forall_forall in H. apply H in Hin.
  by rewrite isSpace_newline in Hin.
Qed.

(** When [Scanln] succeeds, the first line of the input is the word it
    read, with blanks around it. *)
Lemma Scanln_Ok (stdin answer rest : list rune) :
  Scanln stdin = (answer, None, rest) ->
  exists pre post,
    first_line stdin = pre ++ answer ++ post
    /\ Forall (fun r => isSpace r = true) pre
    /\ Forall (fun r => isSpace r = true) post.
Proof.
  unfold Scanln. destruct (SkipSpace stdin) as [input|e] eqn:Ess; [|discriminate].
  destruct input as [|r input]; [discriminate|].
  destruct (token (r :: input)) as [word rest0] eqn:Et.
  destruct (end_of_line rest0) as [rest'|e] eqn:Ee; [|discriminate].
  intros [= <- <-].
  apply SkipSpace_Ok in Ess as (pre & -> & Hpre & Hnpre).
  apply token_spec in Et as [-> Hword].
  apply end_of_line_Ok in Ee as (post & Hpost & Hnpost & Hrest).
  exists pre, post. split; [|done].
  rewrite first_line_app by done.
  rewrite first_line_app by by apply not_space_not_newline.
  destruct Hrest as [->| ->].
  - rewrite <- (app_nil_r post) at 1. rewrite first_line_app by done. cbn.
    by rewrite app_nil_r.
  - rewrite first_line_app by done. cbn. by rewrite app_nil_r.
Qed.

Lemma SkipSpace_blanks (pre input : list rune) (r : rune) :
  Forall (fun r => isSpace r = true) pre -> newline ∉ pre ->
  isSpace r = false ->
  SkipSpace (pre ++ r :: input) = Ok (r :: input).
Proof.
  intros Hpre Hn Hr. induction Hpre as [|b pre Hb _ IH]; cbn.
  - destruct (N.eqb_spec r newline) as [->|_]; [by rewrite isSpace_newline in Hr|].
    by rewrite Hr.
  - apply not_elem_of_cons in Hn as [Hbn Hn].
    destruct (N.eqb_spec b newline); [done|]. rewrite Hb. by apply IH.
Qed.

Lemma token_word (word rest : list rune) :
  Forall (fun r => isSpace r = false) word ->
  rest = [] \/ (exists r rest', rest = r :: rest' /\ isSpace r = true) ->
  token (word ++ rest) = (word, rest).
Proof.
  intros Hword Hrest. induction Hword as [|r word Hr _ IH]; cbn.
  - destruct Hrest as [->|(r & rest' & -> & Hr)]; cbn; [done|by rewrite Hr].
  - by rewrite Hr, IH.
Qed.

Lemma end_of_line_blanks (post tail : list rune) :
  Forall (fun r => isSpace r = true) post -> newline ∉ post ->
  tail = [] \/ (exists tail', tail = newline :: tail') ->
  exists rest', end_of_line (post ++ tail) = Ok rest'.
Proof.
  intros Hpost Hn Htail. induction Hpost as [|b post Hb _ IH]; cbn.
  - destruct Htail as [->|(tail' & ->)]; cbn; eauto.
  - apply not_elem_of_cons in Hn as [Hbn Hn].
    destruct (N.eqb_spec b newline); [done|]. rewrite Hb. by apply IH.
Qed.

(** A first line made of one word with blanks around it is read as that
    word, without error. *)
Lemma Scanln_word (stdin pre word post : list rune) (r : rune) :
  first_line stdin = pre ++ (r :: word) ++ post ->
  Forall (fun r => isSpace r = true) pre ->
  Forall (fun r => isSpace r = false) (r :: word) ->
  Forall (fun r => isSpace r = true) post ->
  exists rest, Scanln stdin = (r :: word, None, rest).
Proof.
  intros Hline Hpre Hword Hpost.
  destruct (first_line_split stdin) as (tail & Hstdin & Hn & Htail).
  rewrite Hline in Hstdin, Hn. rewrite Hstdin.
  apply not_elem_of_app in Hn as [Hnpre [_ Hnpost]%not_elem_of_app].
  unfold Scanln. rewrite <- !app_assoc. cbn [app].
  rewrite SkipSpace_blanks; [|done|done|by inversion Hword].
  change (r :: word ++ post ++ tail) with ((r :: word) ++ post ++ tail).
  rewrite token_word; [|done|].
  - destruct (end_of_line_blanks post tail) as [rest' ->]; eauto.
  - destruct Hpost as [|b post Hb _]; cbn.
    + destruct Htail as [->|(tail' & ->)]; [by left|right].
      exists newline, tail'. by rewrite isSpace_newline.
    + right. by exists b, (post ++ tail).
Qed.

Lemma callback_true_iff (stdin : list rune) (stoppedContainers : list string) :
  (BeforeDeleteCallback stdin stoppedContainers).2 = true <->
  exists answer rest,
    Scanln stdin = (answer, None, rest)
    /\ (answer = runes "y" \/ answer = runes "Y").
Proof.
  unfold BeforeDeleteCallback.
  destruct (Scanln stdin) as [[answer [err|]] rest]; cbn.
  - split; [discriminate|]. by intros (? & ? & [=] & _).
  - destruct (decide (answer = runes "y")) as [->|Hy].
    { split; [|done]. intros _. eexists _, _. split; [done|by left]. }
    destruct (decide (answer = runes "Y")) as [->|HY].
    { split; [|done]. intros _. eexists _, _. split; [done|by right]. }
    rewrite !bool_decide_eq_true_2 by done. cbn.
    split; [discriminate|]. intros (? & ? & [= <- <-] & [?|?]); done.
Qed.

(** C8, as the code has it: the callback returns true exactly when the
    first line of standard input is "y" or "Y" with nothing but blanks
    before and after it on that line, the blanks being what [Scanln] skips;
    in particular it returns true exactly when [Scanln] reads the word "y"
    or "Y" without error, and false, after logging the error, whenever
    [Scanln] fails. *)
Theorem confirmation_needs_the_word_y (stdin : list rune)
    (stoppedContainers : list string) :
  ((BeforeDeleteCallback stdin stoppedContainers).2 = true <->
   exists pre post,
     Forall (fun r => isSpace r = true) pre
     /\ Forall (fun r => isSpace r = true) post
     /\ (first_line stdin = pre ++ runes "y" ++ post
         \/ first_line stdin = pre ++ runes "Y" ++ post))
  /\ ((BeforeDeleteCallback stdin stoppedContainers).2 = true <->
      exists answer rest,
        Scanln stdin = (answer, None, rest)
        /\ (answer = runes "y" \/ answer = runes "Y"))
  /\ (forall answer err rest,
        Scanln stdin = (answer, Some err, rest) ->
        (BeforeDeleteCallback stdin stoppedContainers).2 = false
        /\ logrus_Error err ∈ (BeforeDeleteCallback stdin stoppedContainers).1).
Proof.
  split_and!.
  - rewrite callback_true_iff. split.
    + intros (answer & rest & Hscan & Hans).
      apply Scanln_Ok in Hscan as (pre & post & Hline & Hpre & Hpost).
      exists pre, post. split_and!; [done..|].
      destruct Hans as [<-| <-]; [by left|by right].
    + intros (pre & post & Hpre & Hpost & [Hline|Hline]).
      * destruct (Scanln_word stdin pre [] post 121%N) as [rest Hs]; try done.
        { by repeat constructor. }
        exists (runes "y"), rest. split; [done|by left].
      * destruct (Scanln_word stdin pre [] post 89%N) as [rest Hs]; try done.
        { by repeat constructor. }
        exists (runes "Y"), rest. split; [done|by right].
  - apply callback_true_iff.
  - intros answer err rest Hs. unfold BeforeDeleteCallback. rewrite Hs. cbn.
    split; [done|]. apply elem_of_cons. right. by left.
Qed.

(** C8 as stated fails: a first line that is not exactly "y", here a space
    followed by "y", is confirmed all the same. *)
Lemma confirmation_accepts_padded_y :
  (BeforeDeleteCallback [32; 121; 10]%N []).2 = true
  /\ first_line [32; 121; 10]%N <> runes "y"
  /\ first_line [32; 121; 10]%N <> runes "Y".
Proof. split_and!; [reflexivity | discriminate | discriminate]. Qed.

End DeleteFacts.

(** ** The foreground loop of the up action *)

Section UpFacts.
Import Up.

Ltac step_cases l s :=
  destruct s as [sig can n lg h m]; unfold step; cbn;
  destruct l, m, h as [| | | | | |[?|]| |], lg; cbn;
  try discriminate; try (destruct sig; cbn; try discriminate).

Lemma step_invariant l s s' :
  step l s = Some s' -> invariant s = true -> invariant s' = true.
Proof.
  step_cases l s; intros [= <-]; cbn; try done;
    destruct n as [|[|n]], can; cbn; try done;
    by match goal with e : option Error |- _ => destruct e end.
Qed.

Lemma step_received l s s' :
  step l s = Some s' ->
  received (handler s')
  = received (handler s) || is_select_signal l.
Proof. step_cases l s; intros [= <-]; reflexivity. Qed.

Lemma step_stops l s s' :
  step l s = Some s' ->
  stops s' = (stops s + (if is_stop l then 1 else 0))%nat.
Proof. step_cases l s; intros [= <-]; cbn; lia. Qed.

Lemma step_steps_left l s s' :
  step l s = Some s' -> (steps_left s' < steps_left s)%nat.
Proof. step_cases l s; intros [= <-]; cbn; lia. Qed.

Lemma run_invariant ls s s' :
  run ls s = Some s' -> invariant s = true -> invariant s' = true.
Proof.
  revert s. induction ls as [|l ls IH]; intros s; cbn; [by intros [= <-]|].
  destruct (step l s) as [s1|] eqn:E; [|discriminate].
  intros Hrun Hinv. apply (IH s1); [done|]. by apply (step_invariant l s).
Qed.

Lemma run_received ls s s' :
  run ls s = Some s' ->
  received (handler s') = received (handler s) || existsb is_select_signal ls.
Proof.
  revert s. induction ls as [|l ls IH]; intros s; cbn.
  - intros [= <-]. by rewrite orb_false_r.
  - destruct (step l s) as [s1|] eqn:E; [|discriminate].
    intros ->%IH. rewrite (step_received l s s1 E). by rewrite orb_assoc.
Qed.

Lemma run_stops ls s s' :
  run ls s = Some s' -> stops s' = (stops s + stop_calls ls)%nat.
Proof.
  revert s. induction ls as [|l ls IH]; intros s; cbn.
  - intros [= <-]. unfold stop_calls. cbn. lia.
  - destruct (step l s) as [s1|] eqn:E; [|discriminate].
    intros ->%IH. rewrite (step_stops l s s1 E).
    unfold stop_calls. cbn [List.filter]. destruct (is_stop l); cbn; lia.
Qed.

Lemma run_steps_left ls s s' :
  run ls s = Some s' -> (length ls + steps_left s' <= steps_left s)%nat.
Proof.
  revert s. induction ls as [|l ls IH]; intros s; cbn; [by intros [= <-]|].
  destruct (step l s) as [s1|] eqn:E; [|discriminate].
  intros ?%IH. pose proof (step_steps_left l s s1 E). lia.
Qed.

(** Past the signal case and before the return, the next statement of the
    handler can always run. *)
Lemma received_progress s :
  invariant s = true -> received (handler s) = true -> main s = Waiting ->
  exists l s', own l = true /\ step l s = Some s'.
Proof.
  destruct s as [sig can n lg h m]; cbn. intros Hinv Hrec ->.
  destruct h; try discriminate; unfold step; cbn.
  - exists DoPrintf. eauto.
  - exists DoCancel. eauto.
  - exists (DoStop None). eauto.
  - exists CleanupDone. eauto.
Qed.

(** C9: in a foregrounded up (no detach flag, [p.Up] succeeded), take any
    schedule in which the handler receives a signal.  The process is never
    ended by [logrus.Fatal]; [p.Stop] is called at most once; as long as
    the action has not returned, the next statement of the handler can
    run, and at most 10 steps can happen in all; and once the action has
    returned, it has returned nil (exit status 0) with the context
    cancelled and [p.Stop] called exactly once, the cancellation first. *)
Theorem interrupt_stops_once_and_returns_nil
    (ls : list Label) (s0 s : State) :
  ProjectUp None false = Ok s0 ->
  run ls s0 = Some s ->
  In SelectSignal ls ->
  main s <> Exited1
  /\ stops s = stop_calls ls
  /\ (stop_calls ls <= 1)%nat
  /\ (handler s = SigStop -> cancelled s = true /\ stop_calls ls = 0%nat)
  /\ (main s = Waiting -> exists l s', own l = true /\ step l s = Some s')
  /\ (length ls <= 10)%nat
  /\ (main s = ReturnedNil ->
      exit_status (main s) = Some 0
      /\ cancelled s = true /\ stop_calls ls = 1%nat /\ handler s = SigEnd).
Proof.
  intros [= <-] Hrun Hin.
  pose proof (run_invariant _ _ _ Hrun eq_refl) as Hinv.
  pose proof (run_received _ _ _ Hrun) as Hrec.
  pose proof (run_stops _ _ _ Hrun) as Hstops.
  pose proof (run_steps_left _ _ _ Hrun) as Hleft.
  assert (existsb is_select_signal ls = true) as Hex.
  { apply existsb_exists. by exists SelectSignal. }
  rewrite Hex in Hrec. cbn in Hrec, Hstops, Hleft. rewrite <- Hstops.
  split_and!.
  - intros Hm. revert Hinv Hrec. unfold invariant. rewrite Hm.
    by destruct (handler s) as [| | | | | |[?|]| |].
  - done.
  - revert Hinv. unfold invariant.
    destruct (handler s) as [| | | | | |[?|]| |], (main s), (stops s) as [|[|?]];
      cbn; try done; lia.
  - intros Hh. revert Hinv. unfold invariant. rewrite Hh.
    destruct (main s), (stops s), (cancelled s); by cbn.
  - intros Hm. by apply received_progress.
  - lia.
  - intros Hm. rewrite Hm. split; [done|]. revert Hinv Hrec. unfold invariant.
    rewrite Hm.
    destruct (handler s) as [| | | | | |[?|]| |], (stops s) as [|[|?]],
      (cancelled s); by cbn.
Qed.

End UpFacts.

(** ** The theorems at the sample inputs *)

Lemma sample_range (w : ServiceConfig) :
  Kuber.range (Sample.env_of w) (Sample.configs_of w)
  ≡ₚ map_to_list (Sample.configs_of w).
Proof.
  unfold Sample.configs_of. rewrite map_to_list_insert by done.
  rewrite map_to_list_insert by done. rewrite map_to_list_empty. cbn.
  apply perm_swap.
Defined.

Lemma unknown_restart_policy_is_fatal_witness :
  (exists m, (Kuber.ProjectKuber (Sample.env_of Sample.web_bad_restart)).2
             = Kuber.Fatal m)
  /\ (forall e, e ∈ (Kuber.ProjectKuber (Sample.env_of Sample.web_bad_restart)).1 ->
      Kuber.submitted_for e <> Some "web").
Proof.
  apply (unknown_restart_policy_is_fatal
           (Sample.env_of Sample.web_bad_restart) Sample.refusing
           (Sample.configs_of Sample.web_bad_restart) "web" Sample.web_bad_restart).
  - reflexivity.
  - apply sample_range.
  - reflexivity.
  - unfold Kuber.known_restart. cbn. intros [H|[H|[H|H]]]; discriminate H.
Defined.

(** The whole run at this input: "db" is submitted, its refusal is
    printed, and the loop stops at "web" before any call for it. *)
Example sample_run_unknown_restart_policy :
  exists rc sc,
    Kuber.descriptors "db" Sample.db = Some (rc, sc)
    /\ Kuber.ProjectKuber (Sample.env_of Sample.web_bad_restart)
       = ([Kuber.CreateRC rc; Kuber.Println "connection refused";
           Kuber.CreateSVC sc],
          Kuber.Fatal (Sprintf "Unknown restart policy %s for service %s"
                               [AStr "sometimes"; AStr "web"])).
Proof. eexists _, _. split; reflexivity. Qed.

Lemma non_numeric_port_is_fatal_witness :
  (exists m, (Kuber.ProjectKuber (Sample.env_of Sample.web_bad_port)).2
             = Kuber.Fatal m)
  /\ (forall e, e ∈ (Kuber.ProjectKuber (Sample.env_of Sample.web_bad_port)).1 ->
      Kuber.submitted_for e <> Some "web").
Proof.
  apply (non_numeric_port_is_fatal
           (Sample.env_of Sample.web_bad_port) Sample.refusing
           (Sample.configs_of Sample.web_bad_port) "web" Sample.web_bad_port
           "443/tcp").
  - reflexivity.
  - apply sample_range.
  - reflexivity.
  - cbn. apply elem_of_cons. right. apply elem_of_cons. left. reflexivity.
  - reflexivity.
Defined.

Lemma service_ports_mirror_container_ports_witness :
  exists rc sc c,
    (Kuber.build_ports "web" Sample.web []).2 = Kuber.Done (rc, sc)
    /\ api.PodSpec_Containers
         (api.PodTemplateSpec_Spec (api.Template (api.RC_Spec rc))) = [c]
    /\ length (api.Service_Ports (api.Service_Spec sc))
       = length (api.Container_Ports c)
    /\ length (api.Container_Ports c) = length (Ports Sample.web)
    /\ (forall i port, Ports Sample.web !! i = Some port ->
         exists n, strconv.Atoi port = Ok n
           /\ api.Container_Ports c !! i = Some (api.Build_ContainerPort n)
           /\ api.Service_Ports (api.Service_Spec sc) !! i
              = Some (api.Build_ServicePort n))
    /\ (forall rc' sc', Kuber.descriptors "web" Sample.web = Some (rc', sc') ->
         api.PodSpec_Containers
           (api.PodTemplateSpec_Spec (api.Template (api.RC_Spec rc'))) = [c]
         /\ api.Service_Ports (api.Service_Spec sc')
            = api.Service_Ports (api.Service_Spec sc)).
Proof.
  apply (service_ports_mirror_container_ports "web" Sample.web).
  cbn. repeat constructor.
Defined.

(** The port lists at this input. *)
Example sample_ports :
  exists rc sc,
    Kuber.descriptors "web" Sample.web = Some (rc, sc)
    /\ api.Container_Ports <$>
         api.PodSpec_Containers
           (api.PodTemplateSpec_Spec (api.Template (api.RC_Spec rc)))
       = [[api.Build_ContainerPort 80; api.Build_ContainerPort 443]]
    /\ api.Service_Ports (api.Service_Spec sc)
       = [api.Build_ServicePort 80; api.Build_ServicePort 443].
Proof. eexists _, _. split_and!; reflexivity. Qed.

(** All create calls are made although every replication controller is
    refused. *)
Example sample_run_refused :
  exists rc1 sc1 rc2 sc2,
    Kuber.descriptors "db" Sample.db = Some (rc1, sc1)
    /\ Kuber.descriptors "web" Sample.web = Some (rc2, sc2)
    /\ Kuber.ProjectKuber (Sample.env_of Sample.web)
       = ([Kuber.CreateRC rc1; Kuber.Println "connection refused";
           Kuber.CreateSVC sc1;
           Kuber.CreateRC rc2; Kuber.Println "connection refused";
           Kuber.CreateSVC sc2],
          Kuber.Done tt).
Proof. eexists _, _, _, _. split_and!; reflexivity. Qed.

(** Without an equals sign an argument does not have the form. *)
Lemma prefix_append (sep rest : string) :
  String.prefix sep (String.append sep rest) = true.
Proof.
  induction sep as [|c sep IH]; [by destruct rest|]. simpl.
  destruct (ascii_dec c c); [apply IH | done].
Defined.

Lemma cut_append (name sep rest : string) :
  strings.cut (String.append name (String.append sep rest)) sep <> None.
Proof.
  induction name as [|c name IH].
  - change (String.append "" ?x) with x.
    destruct (String.append sep rest) eqn:E; cbn [strings.cut];
      rewrite <- E, prefix_append; discriminate.
  - change (String.append (String c name) ?x) with (String c (String.append name x)).
    cbn [strings.cut]. destruct (String.prefix _ _); [discriminate|].
    destruct (strings.cut _ _) as [[a b]|]; [discriminate|done].
Defined.

Lemma no_equals_sign (arg : string) :
  strings.cut arg "=" = None -> ~ Scale.name_eq_integer arg.
Proof. intros Hcut (name & count & -> & _). by apply cut_append in Hcut. Defined.

Lemma malformed_scale_argument_exits_2_witness :
  exists msg,
    Scale.ProjectScale (fun _ _ => None) 10 ["web=3"; "db"]
    = ([], Some (NewExitError msg 2)).
Proof.
  apply (malformed_scale_argument_exits_2 (fun _ _ => None) 10 ["web=3"; "db"]).
  apply Exists_cons_tl, Exists_cons_hd, no_equals_sign. reflexivity.
Defined.

Example sample_scale :
  Scale.ProjectScale (fun _ _ => None) 10 ["web=3"; "db=x"]
  = ([], Some (NewExitError
                 (Sprintf "Invalid scale parameter: %v"
                          [ANumError "x" strconv.ErrSyntax]) 2))
  /\ Scale.ProjectScale (fun _ _ => None) 10 ["web=3"; "db=2"]
     = ([Scale.p_Scale 10 (<[ "db" := 2 ]> (<[ "web" := 3 ]> ∅))], None).
Proof. split; reflexivity. Qed.

Lemma interrupt_stops_once_and_returns_nil_witness :
  Up.main Sample.stopped <> Up.Exited1
  /\ Up.stops Sample.stopped = Up.stop_calls Sample.interrupted
  /\ (Up.stop_calls Sample.interrupted <= 1)%nat
  /\ (Up.handler Sample.stopped = Up.SigStop ->
      Up.cancelled Sample.stopped = true
      /\ Up.stop_calls Sample.interrupted = 0%nat)
  /\ (Up.main Sample.stopped = Up.Waiting ->
      exists l s', Up.own l = true /\ Up.step l Sample.stopped = Some s')
  /\ (length Sample.interrupted <= 10)%nat
  /\ (Up.main Sample.stopped = Up.ReturnedNil ->
      Up.exit_status (Up.main Sample.stopped) = Some 0
      /\ Up.cancelled Sample.stopped = true
      /\ Up.stop_calls Sample.interrupted = 1%nat
      /\ Up.handler Sample.stopped = Up.SigEnd).
Proof.
  apply (interrupt_stops_once_and_returns_nil
           Sample.interrupted Up.foreground Sample.stopped).
  - reflexivity.
  - reflexivity.
  - cbn. auto.
Defined.

(** A signal that arrives when the log stream has just ended can lose the
    race in the select: the action then returns nil, or ends in
    [logrus.Fatal], without the signal being received and without a stop. *)
Example signal_not_received :
  (exists s, Up.run [Up.LogReturns None; Up.Deliver; Up.SelectErr; Up.DoCheck;
                     Up.CleanupDone] Up.foreground = Some s
             /\ Up.main s = Up.ReturnedNil /\ Up.stops s = 0%nat
             /\ Up.signalChan s = true)
  /\ (exists s, Up.run [Up.LogReturns (Some "EOF"); Up.Deliver; Up.SelectErr;
                        Up.DoCheck] Up.foreground = Some s
                /\ Up.main s = Up.Exited1 /\ Up.stops s = 0%nat).
Proof. split; eexists; split_and!; reflexivity. Qed.

Example sample_run_action :
  Run.ProjectRun (fun _ _ => (0, None)) ["web"]
  = ([], Run.Fatal (Text "No service specified"))
  /\ Run.ProjectRun (fun _ _ => (0, None)) ["web"; "ls"; "-l"]
     = ([Run.p_Run "web" ["ls"; "-l"]], Run.Return (NewExitError (Text "") 0)).
Proof. split; reflexivity. Qed.

(** * Further properties *)

(** ** The resource conversion *)

Section ConversionFacts.
Import api Kuber Conversion.

Lemma convertible_dec env name service :
  convertible env name service \/ ~ convertible env name service.
Proof.
  unfold convertible. destruct (descriptors name service) as [[rc sc]|].
  - destruct (MarshalIndent env rc) as [data|err] eqn:E.
    + left. exists rc, sc. by rewrite E.
    + right. intros (rc' & sc' & [= <- <-] & H). by rewrite E in H.
  - right. by intros (rc' & sc' & [=] & _).
Qed.

Lemma convert_service_convertible env client name service tr rc sc :
  descriptors name service = Some (rc, sc) ->
  is_Ok (MarshalIndent env rc) = true ->
  convert_service env client name service tr
  = (tr ++ submit client rc sc tr, Done tt).
Proof.
  intros Hd Hm. rewrite convert_service_spec. unfold descriptors in Hd.
  destruct (build name service []).2 as [d|m|]; try discriminate.
  injection Hd as ->. by destruct (MarshalIndent env rc).
Qed.

Lemma convert_service_rejected env client name service tr :
  ~ convertible env name service ->
  exists m, convert_service env client name service tr = (tr, Fatal m).
Proof.
  intros Hn. rewrite convert_service_spec.
  pose proof (build_no_Panic name service) as Hp.
  destruct (build name service []).2 as [[rc sc]|m|] eqn:E; [|by eauto|done].
  destruct (MarshalIndent env rc) as [data|err] eqn:Em; [|by eauto].
  destruct Hn. exists rc, sc. unfold descriptors. by rewrite E, Em.
Qed.

(** The loop submits the services up to the first one it cannot convert. *)
Lemma for_range_prefix env client l tr :
  exists l1 l2,
    l = l1 ++ l2
    /\ Forall (fun d => convertible env d.1 d.2) l1
    /\ (for_range (convert_service env client) l tr).1 = submit_all client l1 tr
    /\ match l2 with
       | [] => (for_range (convert_service env client) l tr).2 = Done tt
       | d :: _ =>
           ~ convertible env d.1 d.2
           /\ exists m, (for_range (convert_service env client) l tr).2 = Fatal m
       end.
Proof.
  revert tr. induction l as [|[n s] l IH]; intros tr.
  { by exists [], []. }
  rewrite for_range_cons.
  destruct (convertible_dec env n s) as [Hc|Hn].
  - destruct Hc as (rc & sc & Hd & Hm).
    rewrite (convert_service_convertible _ _ _ _ _ rc sc Hd Hm).
    destruct (IH (tr ++ submit client rc sc tr)) as (l1 & l2 & -> & Hall & Htr & Hout).
    exists ((n, s) :: l1), l2. split_and!; [done| |by cbn; rewrite Hd|done].
    constructor; [|done]. exists rc, sc. done.
  - destruct (convert_service_rejected env client n s tr Hn) as [m ->].
    exists [], ((n, s) :: l). split_and!; try done. eauto.
Qed.

(** X1: once the steps before the loop succeed, the conversion submits the
    services in visiting order up to the first one it cannot convert;
    there it ends in [Fatalf], and nothing is done for that service or
    any service after it.  It returns exactly when it can convert all. *)
Theorem conversion_stops_at_first_rejected env client configs :
  setup env = Done (client, configs) ->
  exists l1 l2,
    range env configs = l1 ++ l2
    /\ Forall (fun d => convertible env d.1 d.2) l1
    /\ (ProjectKuber env).1 = submit_all client l1 []
    /\ (forall e, e ∈ (ProjectKuber env).1 ->
        forall name, submitted_for e = Some name -> name ∈ l1.*1)
    /\ match l2 with
       | [] => (ProjectKuber env).2 = Done tt
       | d :: _ =>
           ~ convertible env d.1 d.2
           /\ exists m, (ProjectKuber env).2 = Fatal m
       end.
Proof.
  intros Hs. unfold ProjectKuber. rewrite Hs.
  destruct (for_range_prefix env client (range env configs) [])
    as (l1 & l2 & Hl & Hall & Htr & Hout).
  exists l1, l2. split_and!; try done.
  intros e He name Hname.
  assert (Hev : e ∈ (for_range (convert_service env client) l1 []).1).
  { rewrite (for_range_convertible env client l1 []); [by rewrite <- Htr|].
    intros n s Hin. rewrite Forall_forall in Hall. by apply (Hall (n, s)). }
  apply for_range_events in Hev as [?%elem_of_nil|(n & s & rc & sc & Hin & Hd & Hk)];
    [done|].
  apply descriptors_names in Hd as [Hrc Hsc].
  assert (name = n) as ->.
  { destruct Hk as [->|[->|[err ->]]]; cbn in Hname; congruence. }
  apply list_elem_of_fmap. by exists (n, s).
Qed.

Lemma submissions_submit_all env client l tr :
  Forall (fun d => convertible env d.1 d.2) l ->
  submissions (submit_all client l tr) = submissions tr ++ flat_map pair_of l.
Proof.
  intros Hall. revert tr.
  induction Hall as [|[n s] l (rc & sc & Hd & _) _ IH]; intros tr;
    cbn [submit_all flat_map].
  { by rewrite app_nil_r. }
  cbn in Hd. unfold pair_of at 1. cbn [fst snd]. rewrite Hd, IH.
  rewrite submissions_app, submissions_submit, <- app_assoc. done.
Qed.

(** X2: the create calls of a run come in pairs, the replication
    controller of a service and then its service descriptor, both under
    the name of the service; the pairs follow the visiting order of the
    services, from the first service on without a gap, and when the order
    is that of visiting the parsed map, no service has two pairs. *)
Theorem create_calls_come_in_pairs env :
  exists l1 : list (string * ServiceConfig),
    submissions (ProjectKuber env).1 = flat_map pair_of l1
    /\ Forall (fun d => exists rc sc,
                 pair_of d = [CreateRC rc; CreateSVC sc]
                 /\ Name (RC_ObjectMeta rc) = d.1
                 /\ Name (Service_ObjectMeta sc) = d.1) l1
    /\ (forall client configs,
          setup env = Done (client, configs) ->
          l1 `prefix_of` range env configs
          /\ (range env configs ≡ₚ map_to_list configs -> NoDup l1.*1)).
Proof.
  unfold ProjectKuber. destruct (setup env) as [[client configs]|m|] eqn:Hs;
    [|by exists []..].
  destruct (for_range_prefix env client (range env configs) [])
    as (l1 & l2 & Hl & Hall & Htr & _).
  exists l1. split_and!.
  - rewrite Htr. by rewrite (submissions_submit_all env).
  - eapply Forall_impl; [exact Hall|]. intros [n s] (rc & sc & Hd & _).
    cbn in Hd. exists rc, sc. unfold pair_of. cbn [fst snd]. rewrite Hd.
    by destruct (descriptors_names _ _ _ _ Hd).
  - intros client' configs' [= <- <-]. split; [by exists l2|].
    intros Hp.
    assert (NoDup (range env configs).*1) as Hnd
      by (rewrite Hp; apply NoDup_fst_map_to_list).
    rewrite Hl, fmap_app in Hnd. by apply NoDup_app in Hnd as [? _].
Qed.

Lemma descriptors_well_formed name service rc sc :
  descriptors name service = Some (rc, sc) ->
  well_formed_rc rc /\ rc_of service rc
  /\ Name (RC_ObjectMeta rc) = name
  /\ Service_TypeMeta sc = {| Kind := "Service"; APIVersion := "v1" |}
  /\ Labels (Service_ObjectMeta sc) = Service_Selector (Service_Spec sc)
  /\ Name (Service_ObjectMeta sc) = name.
Proof.
  intros (ns & p & Hns & Hp & -> & ->)%descriptors_Some.
  unfold well_formed_rc, rc_of. cbn. split_and!; try done.
  - by eexists.
  - eexists. split_and!; [done..| |done].
    rewrite Hns. f_equal. unfold set_Container_Ports; cbn.
    rewrite <- list_fmap_compose. by rewrite list_fmap_id.
Qed.

(** X3: every replication controller the conversion submits is complete:
    kind and version are set, one replica, the labels of the object and of
    the pod template equal the selector (so it selects its own pods), one
    container named after the service, and a restart policy.  When the
    services come from visiting the parsed map, it is submitted under the
    name of a service of the compose file and carries the image, the
    parsed ports and the mapped restart policy of that service; every
    submitted service descriptor is labelled with its own selector. *)
Theorem submitted_descriptors_are_complete env :
  (forall rc, CreateRC rc ∈ (ProjectKuber env).1 -> well_formed_rc rc)
  /\ (forall sc, CreateSVC sc ∈ (ProjectKuber env).1 ->
      Service_TypeMeta sc = {| Kind := "Service"; APIVersion := "v1" |}
      /\ Labels (Service_ObjectMeta sc) = Service_Selector (Service_Spec sc))
  /\ (forall client configs rc,
        setup env = Done (client, configs) ->
        range env configs ≡ₚ map_to_list configs ->
        CreateRC rc ∈ (ProjectKuber env).1 ->
        exists service,
          configs !! Name (RC_ObjectMeta rc) = Some service /\ rc_of service rc).
Proof.
  split_and!.
  - intros rc (n & s & rc' & sc' & Hd & [[= ->]|[[=]|[err [=]]]])%ProjectKuber_events.
    by apply descriptors_well_formed in Hd as (? & _).
  - intros sc (n & s & rc' & sc' & Hd & [[=]|[[= ->]|[err [=]]]])%ProjectKuber_events.
    by apply descriptors_well_formed in Hd as (_ & _ & _ & ? & ? & _).
  - intros client configs rc Hs Hp. unfold ProjectKuber. rewrite Hs.
    intros [?%elem_of_nil|(n & s & rc' & sc' & Hin & Hd & Hk)]%for_range_events;
      [done|].
    destruct Hk as [[= ->]|[[=]|[err [=]]]].
    apply descriptors_well_formed in Hd as (_ & Hrc & <- & _).
    exists s. split; [|done]. rewrite Hp in Hin. by apply elem_of_map_to_list.
Qed.

End ConversionFacts.

(** ** The numbers [Atoi] accepts *)

Section DecimalFacts.
Import strconv Decimal.

Lemma is_digit_val (c : ascii) :
  is_digit c = true -> 0 <= digit_val c <= 9.
Proof. unfold is_digit, digit_val. lia. Qed.

Lemma digits_value_ge (n : Z) (s : string) :
  0 <= n -> all_digits s = true -> n <= digits_value n s.
Proof.
  revert n. induction s as [|c s IH]; intros n Hn; cbn; [lia|].
  intros [Hc Hs]%andb_prop. apply is_digit_val in Hc.
  specialize (IH (10 * n + digit_val c) ltac:(lia) Hs). lia.
Qed.

(** The digit loop computes the value, or reports the overflow. *)
Lemma parse_digits_exact (n : Z) (s : string) :
  0 <= n <= maxUint64 -> all_digits s = true ->
  parse_digits n s
  = if digits_value n s <=? maxUint64 then Ok (digits_value n s)
    else Err ErrRange.
Proof.
  revert n. induction s as [|c s IH]; intros n Hn; cbn [parse_digits all_digits digits_value].
  { intros _. destruct (Z.leb_spec n maxUint64); [done|lia]. }
  intros [Hc Hs]%andb_prop. rewrite Hc. cbn [negb].
  pose proof (is_digit_val c Hc) as Hd.
  pose proof (digits_value_ge (10 * n + digit_val c) s ltac:(lia) Hs) as Hge.
  unfold uint64, maxUint64 in *.
  change (2 ^ 64) with 18446744073709551616 in *.
  change ((18446744073709551616 - 1) / 10 + 1) with 1844674407370955162.
  change (18446744073709551616 - 1) with 18446744073709551615 in *.
  destruct (Z.leb_spec 1844674407370955162 n) as [Hcut|Hcut].
  { destruct (Z.leb_spec (digits_value (10 * n + digit_val c) s)
                         18446744073709551615); [lia|done]. }
  rewrite (Z.mod_small (n * 10)) by lia.
  destruct (Z.le_gt_cases (n * 10 + digit_val c) 18446744073709551615) as [Hfit|Hover].
  - rewrite (Z.mod_small (n * 10 + digit_val c)) by lia.
    destruct (Z.ltb_spec (n * 10 + digit_val c) (n * 10)); [lia|].
    destruct (Z.ltb_spec 18446744073709551615 (n * 10 + digit_val c)); [lia|].
    cbn [orb]. replace (n * 10 + digit_val c) with (10 * n + digit_val c) by lia.
    apply IH; [lia|done].
  - assert ((n * 10 + digit_val c) mod 18446744073709551616
            = n * 10 + digit_val c - 18446744073709551616) as ->.
    { symmetry. apply Z.mod_unique with (q := 1); lia. }
    destruct (Z.ltb_spec (n * 10 + digit_val c - 18446744073709551616) (n * 10));
      [|lia]. cbn [orb].
    destruct (Z.leb_spec (digits_value (10 * n + digit_val c) s)
                         18446744073709551615); [lia|done].
Qed.

Lemma ParseUint_exact (s : string) :
  unsigned_decimal s = true ->
  ParseUint s
  = if digits_value 0 s <=? maxUint64 then Ok (digits_value 0 s)
    else Err ErrRange.
Proof.
  destruct s as [|c s]; [discriminate|]. unfold unsigned_decimal, ParseUint.
  apply parse_digits_exact. unfold maxUint64. lia.
Qed.

Lemma ParseInt_sign_exact (neg : bool) (body : string) :
  unsigned_decimal body = true ->
  match ParseUint body with
  | Err ErrSyntax => Err ErrSyntax
  | r =>
      let un := match r with Ok u => u | Err _ => maxUint64 end in
      let cutoff := 2 ^ (IntSize - 1) in
      if negb neg && (cutoff <=? un) then Err ErrRange
      else if neg && (cutoff <? un) then Err ErrRange
      else Ok (if neg then - un else un)
  end
  = if digits_value 0 body <=? (if neg then 2 ^ 63 else 2 ^ 63 - 1)
    then Ok (if neg then - digits_value 0 body else digits_value 0 body)
    else Err ErrRange.
Proof.
  intros Hb. rewrite (ParseUint_exact body Hb).
  unfold maxUint64, IntSize. change (2 ^ (64 - 1)) with (2 ^ 63).
  change (2 ^ 64 - 1) with 18446744073709551615.
  change (2 ^ 63) with 9223372036854775808.
  destruct (Z.leb_spec (digits_value 0 body) 18446744073709551615); cbv zeta;
    destruct neg; cbn [negb andb];
    repeat match goal with
      | |- context [Z.leb ?a ?b] => destruct (Z.leb_spec a b)
      | |- context [Z.ltb ?a ?b] => destruct (Z.ltb_spec a b)
      end; try reflexivity; lia.
Qed.

Lemma ParseInt_sign_iff (neg : bool) (body : string) (n : Z) :
  match ParseUint body with
  | Err ErrSyntax => Err ErrSyntax
  | r =>
      let un := match r with Ok u => u | Err _ => maxUint64 end in
      let cutoff := 2 ^ (IntSize - 1) in
      if negb neg && (cutoff <=? un) then Err ErrRange
      else if neg && (cutoff <? un) then Err ErrRange
      else Ok (if neg then - un else un)
  end = Ok n
  <-> (unsigned_decimal body = true
       /\ - 2 ^ 63 <= (if neg then - digits_value 0 body else digits_value 0 body)
          <= 2 ^ 63 - 1)
      /\ n = (if neg then - digits_value 0 body else digits_value 0 body).
Proof.
  destruct (unsigned_decimal body) eqn:Hb.
  - rewrite (ParseInt_sign_exact neg body Hb).
    assert (0 <= digits_value 0 body) as Hge.
    { apply digits_value_ge; [lia|]. by destruct body. }
    change (2 ^ 63) with 9223372036854775808.
    destruct neg;
      match goal with
      | |- context [Z.leb ?a ?b] => destruct (Z.leb_spec a b)
      end; split; try (intros [= <-]); try (intros [[_ ?] ->]);
      try done; try lia; split; try done; split; try done; lia.
  - split; [|by intros [[? _] _]].
    intros H. apply ParseInt_body_Ok in H. congruence.
Qed.

(** [Atoi] accepts exactly the optionally signed runs of digits that
    spell a number of a 64-bit int, and returns that number. *)
Lemma Atoi_exact (s : string) (n : Z) :
  Atoi s = Ok n <-> is_int s /\ n = value s.
Proof.
  unfold is_int, Atoi, ParseInt, decimal_integer, value.
  destruct s as [|c s]; [by split; [|intros [[? _] _]]|].
  destruct (Ascii.eqb c "+"); [|destruct (Ascii.eqb c "-")]; cbv beta iota zeta.
  - apply (ParseInt_sign_iff false s n).
  - apply (ParseInt_sign_iff true s n).
  - apply (ParseInt_sign_iff false (String c s) n).
Qed.

End DecimalFacts.

(** ** The port loops *)

Section PortFacts.
Import api Kuber Decimal.

Lemma parse_ports_exact (l : list string) (ns : list Z) :
  parse_ports l = Some ns <-> Forall is_int l /\ ns = map value l.
Proof.
  revert ns. induction l as [|port l IH]; intros ns; cbn.
  - split; [by intros [= <-]|by intros [_ ->]].
  - destruct (strconv.Atoi port) as [n|e] eqn:E.
    + apply Atoi_exact in E as [Hint ->].
      destruct (parse_ports l) as [ns'|].
      * destruct (IH ns') as [[Hall ->] _]; [done|]. split.
        -- intros [= <-]. split; [by constructor|done].
        -- by intros [_ ->].
      * split; [discriminate|]. intros [Hall ->]. apply Forall_cons in Hall as [_ Hall].
        destruct (IH (map value l)) as [_ IH']. by discriminate IH'.
    + split; [discriminate|]. intros [Hall _]. apply Forall_cons in Hall as [Hint _].
      assert (strconv.Atoi port = Ok (value port)) as E' by by apply Atoi_exact.
      congruence.
Qed.

Lemma parse_ports_rejected (l : list string) :
  Exists (fun port => ~ is_int port) l -> parse_ports l = None.
Proof.
  intros Hex. destruct (parse_ports l) as [ns|] eqn:E; [|done].
  apply parse_ports_exact in E as [Hall _].
  apply Exists_exists in Hex as (port & Hin & Hn).
  rewrite Forall_forall in Hall. destruct Hn. by apply Hall.
Qed.

(** X4: the conversion takes a port string exactly when it spells, with
    an optional sign and digits only, a number of a 64-bit int, and the
    port it stores in both descriptors is that number; it checks nothing
    else about it (a negative number or one above 65535 is a port like any
    other).  One port string of another kind makes lines 111-173 end in
    [Fatalf]. *)
Theorem port_strings_taken (name : string) (service : ServiceConfig) :
  (Forall is_int (Ports service) ->
   (build_ports name service []).2
   = Done (set_rc_ports
             (map (fun port => Build_ContainerPort (value port)) (Ports service))
             (new_rc name service),
           set_sc_ports
             (map (fun port => Build_ServicePort (value port)) (Ports service))
             (new_sc name)))
  /\ (Exists (fun port => ~ is_int port) (Ports service) ->
      exists m, (build_ports name service []).2 = Fatal m).
Proof.
  split.
  - intros Hall.
    assert (parse_ports (Ports service) = Some (map value (Ports service))) as H
      by by apply parse_ports_exact.
    rewrite (build_ports_Some _ _ _ _ H). cbn [snd].
    by rewrite !map_map.
  - intros Hex%parse_ports_rejected.
    destruct (build_ports_None name service [] Hex) as [m ->]. eauto.
Qed.

(** X5: the second port loop (lines 165-172) never fails: when the first
    one has got through the port list, the second gets through it as well,
    with the same numbers, so its [Fatalf] is never reached. *)
Theorem second_port_loop_never_fails (name : string) (l : list string)
    (tr tr' : list Event) (ports : list ContainerPort) :
  container_ports name l [] tr = (tr', Done ports) ->
  exists servicePorts,
    service_ports name l [] tr' = (tr', Done servicePorts)
    /\ ServicePort_Port <$> servicePorts
       = ContainerPort_ContainerPort <$> ports.
Proof.
  destruct (parse_ports l) as [ns|] eqn:E.
  - rewrite (container_ports_Some _ _ _ _ ns E). intros [= <- <-].
    rewrite (service_ports_Some _ _ _ _ ns E). eexists. split; [done|].
    cbn. rewrite <- !list_fmap_compose. done.
  - destruct (container_ports_None name l [] tr E) as [m ->]. discriminate.
Qed.

End PortFacts.

(** ** The server address, written and read back *)

Section KuberConfigFacts.
Import Kuber KuberConfig.


End KuberConfigFacts.

(** ** The arguments of the scale action *)

Section ScaleArgsFacts.
Import Scale ScaleArgs.

Lemma cut_equals_cons (c : ascii) (s : string) :
  strings.cut (String c s) "="
  = if Ascii.eqb c "=" then Some (EmptyString, s)
    else match strings.cut s "=" with
         | Some (a, b) => Some (String c a, b)
         | None => None
         end.
Proof.
  cbn [strings.cut].
  change (String.prefix "=" (String c s))
    with (if ascii_dec "=" c then String.prefix "" s else false).
  destruct (ascii_dec "=" c) as [<-|Hne].
  - replace (String.prefix "" s) with true by by destruct s.
    cbn. by rewrite Nat.sub_0_r, substring_all.
  - destruct (Ascii.eqb_spec c "=") as [->|_]; [done|reflexivity].
Qed.

(** [cut] at the equals sign splits at the first one. *)
Lemma cut_equals (s a b : string) :
  strings.cut s "=" = Some (a, b)
  <-> s = String.append a (String.append "=" b) /\ has_equals a = false.
Proof.
  revert a. induction s as [|c s IH]; intros a.
  - split; [discriminate|]. intros [H _]. by destruct a.
  - rewrite cut_equals_cons. destruct (Ascii.eqb_spec c "=") as [->|Hc].
    + split.
      * by intros [= <- <-].
      * intros [H Ha]. destruct a as [|c' a].
        -- change (String "=" s = String "=" b) in H. by injection H as <-.
        -- change (String "=" s = String c' (String.append a (String.append "=" b)))
             in H.
           injection H as <- _. cbn in Ha. done.
    + split.
      * destruct (strings.cut s "=") as [[a' b']|] eqn:E; [|discriminate].
        intros [= <- <-]. destruct (IH a') as [[-> Ha] _]; [done|].
        split; [done|]. cbn. rewrite Ha.
        by destruct (Ascii.eqb_spec c "=").
      * intros [H Ha]. destruct a as [|c' a].
        -- change (String c s = String "=" b) in H. by injection H.
        -- change (String c s = String c' (String.append a (String.append "=" b)))
             in H.
           injection H as <- ->. cbn in Ha. apply orb_false_elim in Ha as [_ Ha].
           destruct (IH a) as [_ ->]; done.
Qed.

Lemma parse_arg_reads_as (arg name : string) (count : Z) :
  parse_arg arg = Some (name, count) <-> reads_as arg name count.
Proof.
  unfold parse_arg, reads_as. cbn [strings.SplitN].
  destruct (strings.cut arg "=") as [[a b]|] eqn:E.
  - apply cut_equals in E as [-> Ha]. split.
    + destruct (strconv.Atoi b) as [n|e] eqn:Ea; [|discriminate].
      intros [= <- <-]. apply Atoi_exact in Ea as [Hint ->]. by exists b.
    + intros (v & Heq & Hname & Hint & ->).
      assert (strings.cut (String.append a (String.append "=" b)) "="
              = Some (name, v)) as Hcut by by apply cut_equals.
      assert (strings.cut (String.append a (String.append "=" b)) "="
              = Some (a, b)) as Hcut' by by apply cut_equals.
      rewrite Hcut in Hcut'. injection Hcut' as <- <-.
      assert (strconv.Atoi v = Ok (Decimal.value v)) as -> by by apply Atoi_exact.
      done.
  - split; [discriminate|]. intros (v & Heq & Hname & _).
    assert (strings.cut arg "=" = Some (name, v)) by by apply cut_equals.
    congruence.
Qed.

Lemma scale_args_cons_Some (arg name : string) (count : Z)
    (args : list string) (m : gmap string Z) :
  parse_arg arg = Some (name, count) ->
  scale_args (arg :: args) m = scale_args args (<[name := count]> m).
Proof.
  unfold parse_arg. cbn [scale_args].
  destruct (strings.SplitN arg "=" 2) as [|n [|v [|x kv]]]; try discriminate.
  destruct (strconv.Atoi v); [|discriminate]. by intros [= <- <-].
Qed.

Lemma scale_args_cons_None (arg : string) (args : list string)
    (m : gmap string Z) :
  parse_arg arg = None ->
  exists msg, scale_args (arg :: args) m = Err (NewExitError msg 2).
Proof.
  unfold parse_arg. cbn [scale_args].
  destruct (strings.SplitN arg "=" 2) as [|n [|v [|x kv]]]; eauto.
  destruct (strconv.Atoi v); [discriminate|eauto].
Qed.

Lemma scale_args_Ok (args : list string) (m0 m : gmap string Z) :
  scale_args args m0 = Ok m ->
  forall name, m !! name = last_count name args (m0 !! name).
Proof.
  revert m0. induction args as [|arg args IH]; intros m0; [by intros [= <-]|].
  cbn [last_count]. destruct (parse_arg arg) as [[n count]|] eqn:E.
  - rewrite (scale_args_cons_Some _ _ _ _ _ E).
    intros H name. rewrite (IH _ H name). f_equal.
    case_decide as Hn; [subst; by rewrite lookup_insert_eq|].
    by rewrite lookup_insert_ne.
  - destruct (scale_args_cons_None arg args m0 E) as [msg ->]. discriminate.
Qed.

Lemma scale_args_taken (args : list string) (m0 : gmap string Z) :
  Forall (fun arg => exists name count, reads_as arg name count) args ->
  exists m, scale_args args m0 = Ok m.
Proof.
  intros Hall. revert m0.
  induction Hall as [|arg args (name & count & Hr) _ IH]; intros m0; [by eexists|].
  apply parse_arg_reads_as in Hr.
  rewrite (scale_args_cons_Some _ _ _ _ _ Hr). apply IH.
Qed.

Lemma scale_args_refused (args : list string) (m0 : gmap string Z) :
  Exists (fun arg => forall name count, ~ reads_as arg name count) args ->
  exists msg, scale_args args m0 = Err (NewExitError msg 2).
Proof.
  intros Hex. revert m0.
  induction Hex as [arg args Hbad|arg args _ IH]; intros m0;
    destruct (parse_arg arg) as [[n c]|] eqn:E;
    try (by apply scale_args_cons_None).
  - apply parse_arg_reads_as in E. by destruct (Hbad n c).
  - rewrite (scale_args_cons_Some _ _ _ _ _ E). apply IH.
Qed.

(** X7: the scale action calls [p.Scale], and then exactly once, when
    every argument is a name without an equals sign, an equals sign and a
    number of a 64-bit int in decimal; its result is then nil or, with the
    error of [p.Scale], an exit error with code 1.  One argument of
    another kind, also one with a second equals sign such as a=b=3, gives
    an exit error with code 2 and no call. *)
Theorem scale_takes_name_equals_count
    (Scale : Z -> gmap string Z -> option Error) (timeout : Z)
    (args : list string) :
  (Forall (fun arg => exists name count, reads_as arg name count) args ->
   exists m,
     ProjectScale Scale timeout args
     = ([p_Scale timeout m],
        match Scale timeout m with
        | Some err => Some (NewExitError (Text err) 1)
        | None => None
        end))
  /\ (Exists (fun arg => forall name count, ~ reads_as arg name count) args ->
      exists msg, ProjectScale Scale timeout args = ([], Some (NewExitError msg 2))).
Proof.
  unfold ProjectScale. split.
  - intros [m ->]%(scale_args_taken args ∅). by exists m.
  - intros [msg ->]%(scale_args_refused args ∅). by exists msg.
Qed.

Lemma last_count_none (name : string) (args : list string) (d : option Z) :
  Forall (fun arg => forall count, ~ reads_as arg name count) args ->
  last_count name args d = d.
Proof.
  intros Hall. revert d. induction Hall as [|arg args Hn _ IH]; intros d; [done|].
  cbn [last_count]. rewrite IH.
  destruct (parse_arg arg) as [[n c]|] eqn:E; [|done].
  case_decide as Hname; [|done]. subst.
  apply parse_arg_reads_as in E. by destruct (Hn c).
Qed.

Lemma last_count_app (name : string) (pre post : list string) (d : option Z) :
  last_count name (pre ++ post) d = last_count name post (last_count name pre d).
Proof. revert d. induction pre as [|arg pre IH]; intros d; [done|apply IH]. Qed.

(** X8: the map the scale action hands to [p.Scale] holds, for every name
    the arguments mention, the count of the last argument with that name
    (a later argument overrides an earlier one), and nothing for any other
    name; the timeout is the one of the flag. *)
Theorem last_scale_argument_wins
    (Scale : Z -> gmap string Z -> option Error) (timeout t : Z)
    (args : list string) (m : gmap string Z) (r : option ExitError) :
  ProjectScale Scale timeout args = ([p_Scale t m], r) ->
  t = timeout
  /\ (forall pre arg post name count,
        args = pre ++ arg :: post ->
        reads_as arg name count ->
        Forall (fun arg' => forall count', ~ reads_as arg' name count') post ->
        m !! name = Some count)
  /\ (forall name,
        Forall (fun arg => forall count, ~ reads_as arg name count) args ->
        m !! name = None).
Proof.
  unfold ProjectScale. destruct (scale_args args ∅) as [m'|e] eqn:E; [|discriminate].
  intros [= <- <- _]. pose proof (scale_args_Ok _ _ _ E) as Hm.
  split; [done|]. split.
  - intros pre arg post name count -> Hr Hpost. rewrite Hm.
    rewrite last_count_app. cbn [last_count].
    apply parse_arg_reads_as in Hr as ->. rewrite decide_True by done.
    by apply last_count_none.
  - intros name Hall. rewrite Hm, last_count_none by done. apply lookup_empty.
Qed.

End ScaleArgsFacts.

(** ** The actions that pass one call on *)

Section ActionsFacts.
Import Actions.

(** X9: each of the twelve actions ps, stop, down, build, create, start,
    restart, log, delete, kill, pause and unpause makes exactly one call
    on the project handle, for exactly the positional arguments as
    services, and turns its answer into the result: nil for no error, an
    exit error with code 1 and the text of the error otherwise.  The pull
    action does the same, except that with the flag ignore-pull-failures
    it returns nil whatever the call answers. *)
Theorem actions_pass_one_call_on (p : APIProject) (c : Context) :
  Forall (fun action : APIProject -> Context -> list Effect * option ExitError =>
            exists call,
              calls (action p c).1 = [call]
              /\ services_of call = Args c
              /\ (action p c).2 = exit_1 (answer p call))
         on_services
  /\ (exists call,
        calls (ProjectPull p c).1 = [call]
        /\ services_of call = Args c
        /\ (ProjectPull p c).2
           = if Bool c "ignore-pull-failures" then None
             else exit_1 (answer p call)).
Proof.
  split.
  - unfold on_services. repeat apply Forall_cons_2; try apply Forall_nil_2;
      try (eexists; split_and!; reflexivity).
    + unfold ProjectPs. destruct (answer p (p_Ps _ _)) eqn:E;
        eexists; (split_and!; [reflexivity..|]); cbn; by rewrite E.
    + unfold ProjectDelete, Delete.ProjectDelete. cbn.
      eexists. split_and!; [reflexivity..|]. cbn.
      by destruct (Bool c "force").
  - unfold ProjectPull. eexists. split_and!; [reflexivity..|]. cbn.
    by destruct (answer p _), (Bool c "ignore-pull-failures").
Qed.


End ActionsFacts.

(** ** The run action, beyond its guard *)

(** X11: with two arguments or more, the run action calls [p.Run] once,
    for the first argument as service and the others, at least one, as
    command.  It never returns nil: when the call fails it returns an exit
    error with code 1, otherwise one with an empty text and the exit code
    of the command, also when that code is 0. *)
Theorem run_returns_the_exit_code
    (Run : string -> list string -> Z * option Error) (args : list string) :
  (2 <= length args)%nat ->
  exists serviceName commandParts,
    args = serviceName :: commandParts
    /\ commandParts <> []
    /\ (Run.ProjectRun Run args).1 = [Run.p_Run serviceName commandParts]
    /\ (Run.ProjectRun Run args).2
       = Run.Return
           match (Run serviceName commandParts).2 with
           | Some err => NewExitError (Text err) 1
           | None => NewExitError (Text "") (Run serviceName commandParts).1
           end.
Proof.
  intros Hlen. destruct args as [|serviceName [|arg commandParts]];
    cbn in Hlen; try lia.
  exists serviceName, (arg :: commandParts). unfold Run.ProjectRun.
  rewrite decide_False by (cbn; lia). cbn.
  by destruct (Run serviceName (arg :: commandParts)) as [exitCode [err|]].
Qed.

(** ** The foreground loop, whatever happens first *)

Section ForegroundFacts.
Import Up.

Ltac step_cases' l s :=
  destruct s as [sig can n lg h m]; unfold step; cbn;
  destruct l, m, h as [| | | | | |[?|]| |], lg; cbn;
  try discriminate; try (destruct sig; cbn; try discriminate).

Lemma run_snoc (ls : list Label) (l : Label) (s0 s : State) :
  run (ls ++ [l]) s0 = Some s
  <-> exists s1, run ls s0 = Some s1 /\ step l s1 = Some s.
Proof.
  revert s0. induction ls as [|l' ls IH]; intros s0; cbn.
  - destruct (step l s0) as [s1|] eqn:E; split.
    + intros [= <-]. by exists s0.
    + intros (? & [= <-] & H). by rewrite E in H.
    + discriminate.
    + intros (? & [= <-] & H). by rewrite E in H.
  - destruct (step l' s0) as [s1|]; [apply IH|].
    split; [discriminate|]. by intros (? & [=] & _).
Qed.

(** What the state remembers of the schedule: a value on its way through
    [errChan] was returned by [p.Log], and a signal in the buffer or in
    the hands of the handler was delivered. *)
Lemma run_history (ls : list Label) (s : State) :
  run ls foreground = Some s ->
  (forall err, logger s = Sending err -> In (LogReturns err) ls)
  /\ (forall err, handler s = ErrCheck err -> In (LogReturns err) ls)
  /\ (handler s = ErrSend \/ handler s = ErrEnd -> In (LogReturns None) ls)
  /\ (signalChan s = true \/ received (handler s) = true -> In Deliver ls)
  /\ (logger s = LoggerEnd -> received (handler s) = false /\ handler s <> Select).
Proof.
  revert s. induction ls as [|l ls IH] using rev_ind; intros s.
  - intros [= <-]. cbn. split_and!; try done; intros [|]; done.
  - intros (s1 & Hrun & Hstep)%run_snoc.
    destruct (IH s1 Hrun) as (Hlog & Hchk & Hsend & Hsig & Hleak).
    pose proof (run_invariant _ _ _ Hrun eq_refl) as Hinv.
    setoid_rewrite in_app_iff. revert Hstep Hlog Hchk Hsend Hsig Hleak Hinv.
    step_cases' l s1; intros [= <-]; cbn; intros Hlog Hchk Hsend Hsig Hleak Hinv;
      split_and!; try done; try (intros ? [= <-]); try (intros [[=]|[=]]);
      try (intros [=]); eauto 6; try (right; left; done);
      try (left; eauto; fail); try (by destruct Hleak).
Qed.

Lemma waiting_can_step (s : State) :
  invariant s = true -> main s = Waiting -> exists l s', step l s = Some s'.
Proof.
  destruct s as [sig can n lg h m]; cbn. intros Hinv ->.
  destruct sig; [|by exists Deliver; eexists].
  destruct h as [| | | | | |err| |]; try discriminate.
  - exists SelectSignal. by eexists.
  - exists DoPrintf. by eexists.
  - exists DoCancel. by eexists.
  - exists (DoStop None). by eexists.
  - exists CleanupDone. by eexists.
  - exists DoCheck. destruct err; by eexists.
  - exists CleanupDone. by eexists.
Qed.

(** X12: the foreground loop of the up action never deadlocks (while the
    action has not returned, a statement of the source can run, or a
    signal can still arrive) and takes at most 10 steps; it ends in one of
    three ways: the action returns nil after an
    interrupt, with the context cancelled and [p.Stop] called once; it
    returns nil because [p.Log] returned without error, with the context
    not cancelled and [p.Stop] never called; or the process is ended by
    [logrus.Fatal] because [p.Log] returned an error, again without a
    stop. *)
Theorem foreground_loop_ends_in_three_ways (ls : list Label) (s : State) :
  run ls foreground = Some s ->
  (main s = Waiting -> exists l s', step l s = Some s')
  /\ (length ls <= 10)%nat
  /\ (main s = ReturnedNil ->
      (handler s = SigEnd /\ stops s = 1%nat /\ cancelled s = true
       /\ In Deliver ls)
      \/ (handler s = ErrEnd /\ stops s = 0%nat /\ cancelled s = false
          /\ In (LogReturns None) ls))
  /\ (main s = Exited1 ->
      stops s = 0%nat /\ cancelled s = false
      /\ exists err, In (LogReturns (Some err)) ls).
Proof.
  intros Hrun.
  pose proof (run_invariant _ _ _ Hrun eq_refl) as Hinv.
  pose proof (run_steps_left _ _ _ Hrun) as Hleft.
  destruct (run_history ls s Hrun) as (_ & Hchk & Hsend & Hsig & _).
  split_and!.
  - by apply waiting_can_step.
  - cbn in Hleft. lia.
  - intros Hm. revert Hinv Hsend Hsig. unfold invariant. rewrite Hm.
    destruct (handler s) as [| | | | | |[?|]| |], (stops s) as [|[|?]],
      (cancelled s); cbn; try done; intros _ Hsend Hsig.
    + left. split_and!; try done. apply Hsig. by right.
    + right. split_and!; try done. apply Hsend. by right.
  - intros Hm. revert Hinv Hchk. unfold invariant. rewrite Hm.
    destruct (handler s) as [| | | | | |[err|]| |], (stops s) as [|?],
      (cancelled s); cbn; try done; intros _ Hchk.
    split_and!; try done. exists err. by apply Hchk.
Qed.

(** X13: [p.Stop] is called, and the context cancelled, only after a
    signal was delivered and the handler received it; the stop is called
    at most once and never before the cancellation.  Once the handler has
    received the signal, what [p.Log] returns is never taken from
    [errChan]: the goroutine of lines 294-296 does not end. *)
Theorem no_stop_without_signal (ls : list Label) (s : State) :
  run ls foreground = Some s ->
  stops s = stop_calls ls
  /\ (stop_calls ls <= 1)%nat
  /\ (stops s = 1%nat -> cancelled s = true)
  /\ (cancelled s = true -> In Deliver ls /\ In SelectSignal ls)
  /\ (In SelectSignal ls -> logger s <> LoggerEnd).
Proof.
  intros Hrun.
  pose proof (run_invariant _ _ _ Hrun eq_refl) as Hinv.
  pose proof (run_received _ _ _ Hrun) as Hrec.
  pose proof (run_stops _ _ _ Hrun) as Hstops.
  destruct (run_history ls s Hrun) as (_ & _ & _ & Hsig & Hleak).
  cbn in Hrec, Hstops. rewrite <- Hstops.
  assert (received (handler s) = true <-> In SelectSignal ls) as Hin.
  { rewrite Hrec, existsb_exists. split.
    - intros (l & Hl & Hsel). by destruct l.
    - intros H. by exists SelectSignal. }
  split_and!.
  - done.
  - revert Hinv. unfold invariant.
    destruct (handler s) as [| | | | | |[?|]| |], (main s), (stops s) as [|[|?]];
      cbn; try done; lia.
  - revert Hinv. unfold invariant.
    destruct (handler s) as [| | | | | |[?|]| |], (main s), (stops s) as [|[|?]],
      (cancelled s); by cbn.
  - intros Hc.
    assert (received (handler s) = true) as Hr.
    { revert Hinv. unfold invariant. rewrite Hc.
      destruct (handler s) as [| | | | | |[?|]| |], (main s), (stops s) as [|[|?]];
        by cbn. }
    split; [apply Hsig; by right|by apply Hin].
  - intros Hr%Hin Hend. destruct (Hleak Hend) as [Hf _]. congruence.
Qed.

End ForegroundFacts.

(** ** What has to succeed before the first create call *)

Section SetupFacts.
Import Kuber KuberConfig.

(** X14: the conversion makes a create call only after the compose file
    was parsed, the output directory created, the file with the server
    address read and found not empty, and the client built for that
    address and the API version of the environment (or the default one). *)
Theorem setup_gates_every_create_call (env : Env) :
  (ProjectKuber env).1 <> [] ->
  exists configs server client,
    Parse env (Kuber.c_String env "file") = Ok configs
    /\ MkdirAll env (Kuber.c_String env "output") = None
    /\ ReadFile env "~/.kuberconfig" = Ok server
    /\ server <> ""
    /\ NewOrDie env server (api_version env) = Some client
    /\ setup env = Done (client, configs).
Proof.
  unfold ProjectKuber, setup, api_version.
  destruct (Parse env _) as [configs|?]; [|done].
  destruct (MkdirAll env _); [done|].
  destruct (ReadFile env _) as [server|?]; [|done].
  case_decide as Hs; [done|].
  destruct (NewOrDie env server _) as [client|] eqn:E; [|done].
  intros _. by exists configs, server, client.
Qed.

End SetupFacts.

(** ** The further theorems at sample inputs *)

Lemma conversion_stops_at_first_rejected_witness :
  exists l1 l2,
    Kuber.range (Sample.env_of Sample.web_bad_port)
                (Sample.configs_of Sample.web_bad_port) = l1 ++ l2
    /\ Forall (fun d => Kuber.convertible (Sample.env_of Sample.web_bad_port)
                                          d.1 d.2) l1
    /\ (Kuber.ProjectKuber (Sample.env_of Sample.web_bad_port)).1
       = Kuber.submit_all Sample.refusing l1 []
    /\ (forall e,
          e ∈ (Kuber.ProjectKuber (Sample.env_of Sample.web_bad_port)).1 ->
          forall name, Kuber.submitted_for e = Some name -> name ∈ l1.*1)
    /\ match l2 with
       | [] => (Kuber.ProjectKuber (Sample.env_of Sample.web_bad_port)).2
               = Kuber.Done tt
       | d :: _ =>
           ~ Kuber.convertible (Sample.env_of Sample.web_bad_port) d.1 d.2
           /\ exists m, (Kuber.ProjectKuber (Sample.env_of Sample.web_bad_port)).2
                        = Kuber.Fatal m
       end.
Proof.
  apply (conversion_stops_at_first_rejected
           (Sample.env_of Sample.web_bad_port) Sample.refusing
           (Sample.configs_of Sample.web_bad_port)).
  reflexivity.
Defined.

Lemma second_port_loop_never_fails_witness :
  exists servicePorts,
    Kuber.service_ports "web" ["80"; "443"] [] []
    = ([], Kuber.Done servicePorts)
    /\ api.ServicePort_Port <$> servicePorts
       = api.ContainerPort_ContainerPort <$>
           [api.Build_ContainerPort 80; api.Build_ContainerPort 443].
Proof.
  apply (second_port_loop_never_fails "web" ["80"; "443"] [] []
           [api.Build_ContainerPort 80; api.Build_ContainerPort 443]).
  reflexivity.
Defined.


Lemma last_scale_argument_wins_witness :
  10 = 10
  /\ (forall pre arg post name count,
        MoreSamples.scale_args = pre ++ arg :: post ->
        ScaleArgs.reads_as arg name count ->
        Forall (fun arg' => forall count', ~ ScaleArgs.reads_as arg' name count')
               post ->
        MoreSamples.scale_map !! name = Some count)
  /\ (forall name,
        Forall (fun arg => forall count, ~ ScaleArgs.reads_as arg name count)
               MoreSamples.scale_args ->
        MoreSamples.scale_map !! name = None).
Proof.
  apply (last_scale_argument_wins (fun _ _ => None) 10 10
           MoreSamples.scale_args MoreSamples.scale_map None).
  reflexivity.
Defined.

(** The count of "web" at this input is the later one. *)
Example sample_scale_twice :
  Scale.ProjectScale (fun _ _ => None) 10 MoreSamples.scale_args
  = ([Scale.p_Scale 10 MoreSamples.scale_map], None)
  /\ MoreSamples.scale_map !! "web" = Some 3
  /\ Scale.ProjectScale (fun _ _ => None) 10 ["a=b=3"]
     = ([], Some (NewExitError
                    (Sprintf "Invalid scale parameter: %v"
                             [ANumError "b=3" strconv.ErrSyntax]) 2)).
Proof. split_and!; reflexivity. Qed.

Lemma run_returns_the_exit_code_witness :
  exists serviceName commandParts,
    ["web"; "true"] = serviceName :: commandParts
    /\ commandParts <> []
    /\ (Run.ProjectRun (fun _ _ => (0, None)) ["web"; "true"]).1
       = [Run.p_Run serviceName commandParts]
    /\ (Run.ProjectRun (fun _ _ => (0, None)) ["web"; "true"]).2
       = Run.Return
           match ((fun _ _ => (0, None)) serviceName commandParts
                  : Z * option Error).2 with
           | Some err => NewExitError (Text err) 1
           | None =>
               NewExitError (Text "")
                 ((fun _ _ => (0, None)) serviceName commandParts
                  : Z * option Error).1
           end.
Proof.
  apply (run_returns_the_exit_code (fun _ _ => (0, None)) ["web"; "true"]).
  cbn. lia.
Defined.

Lemma foreground_loop_ends_in_three_ways_witness :
  (Up.main MoreSamples.fatal = Up.Waiting ->
   exists l s', Up.step l MoreSamples.fatal = Some s')
  /\ (length MoreSamples.log_failed <= 10)%nat
  /\ (Up.main MoreSamples.fatal = Up.ReturnedNil ->
      (Up.handler MoreSamples.fatal = Up.SigEnd
       /\ Up.stops MoreSamples.fatal = 1%nat
       /\ Up.cancelled MoreSamples.fatal = true
       /\ In Up.Deliver MoreSamples.log_failed)
      \/ (Up.handler MoreSamples.fatal = Up.ErrEnd
          /\ Up.stops MoreSamples.fatal = 0%nat
          /\ Up.cancelled MoreSamples.fatal = false
          /\ In (Up.LogReturns None) MoreSamples.log_failed))
  /\ (Up.main MoreSamples.fatal = Up.Exited1 ->
      Up.stops MoreSamples.fatal = 0%nat
      /\ Up.cancelled MoreSamples.fatal = false
      /\ exists err, In (Up.LogReturns (Some err)) MoreSamples.log_failed).
Proof.
  apply (foreground_loop_ends_in_three_ways MoreSamples.log_failed MoreSamples.fatal).
  reflexivity.
Defined.

Lemma no_stop_without_signal_witness :
  Up.stops Sample.stopped = Up.stop_calls Sample.interrupted
  /\ (Up.stop_calls Sample.interrupted <= 1)%nat
  /\ (Up.stops Sample.stopped = 1%nat -> Up.cancelled Sample.stopped = true)
  /\ (Up.cancelled Sample.stopped = true ->
      In Up.Deliver Sample.interrupted /\ In Up.SelectSignal Sample.interrupted)
  /\ (In Up.SelectSignal Sample.interrupted ->
      Up.logger Sample.stopped <> Up.LoggerEnd).
Proof.
  apply (no_stop_without_signal Sample.interrupted Sample.stopped).
  reflexivity.
Defined.

Lemma setup_gates_every_create_call_witness :
  exists configs server client,
    Kuber.Parse (Sample.env_of Sample.web)
      (Kuber.c_String (Sample.env_of Sample.web) "file") = Ok configs
    /\ Kuber.MkdirAll (Sample.env_of Sample.web)
         (Kuber.c_String (Sample.env_of Sample.web) "output") = None
    /\ Kuber.ReadFile (Sample.env_of Sample.web) "~/.kuberconfig" = Ok server
    /\ server <> ""
    /\ Kuber.NewOrDie (Sample.env_of Sample.web) server
         (KuberConfig.api_version (Sample.env_of Sample.web)) = Some client
    /\ Kuber.setup (Sample.env_of Sample.web) = Kuber.Done (client, configs).
Proof.
  apply (setup_gates_every_create_call (Sample.env_of Sample.web)).
  discriminate.
Defined.
